(** * dump_registers: extraction of MMIO registers from the Tegra X1 TRM

    A shallow embedding of [scripts/dump_registers.py] and the properties of
    its pattern extractor, record builder, permission classifier and code
    emitter.

    Modelling scope.  A Python [str] is modelled as a list of 8-bit
    characters, read as the code points U+0000 to U+00FF.  The patterns are
    compiled without [re.ASCII], so the classes [\d], [\w] and [\s] and the
    white space that [int] skips follow Python's Unicode tables on this
    range.  [str.upper] is followed wherever its result is one character of
    the range; the three other characters are dealt with at [upper_char].
    The PDF layout engine (pdfminer) is an outside collaborator: a page is
    the list of layout elements it returns.  Assertions are enabled (the
    interpreter runs without [-O]), and opening the output file for writing
    succeeds. *)

From Stdlib Require Import Ascii String List ZArith Lia Bool Arith.
From Stdlib Require Import Permutation Sorted DecimalString.
Import ListNotations.

Local Open Scope list_scope.

(** ** Text *)

Definition text := list ascii.

Definition txt (s : string) : text := list_ascii_of_string s.

Definition LF : ascii := "010"%char.

(** [ord(c)] *)
Definition ord (c : ascii) : nat := nat_of_ascii c.

Definition between (lo hi : nat) (c : ascii) : bool :=
  (lo <=? ord c) && (ord c <=? hi).

Definition is_digit (c : ascii) : bool := between 48 57 c.
Definition is_lower (c : ascii) : bool := between 97 122 c.
Definition is_upper (c : ascii) : bool := between 65 90 c.

(** The characters from U+0080 to U+00FF that [str.isalnum] accepts:
    the ordinal indicators, the superscript digits, the micro sign, the
    fractions and the letters, which leaves out the multiplication and
    division signs. *)
Definition is_latin1_alnum (c : ascii) : bool :=
  (ord c =? 170) || between 178 179 c || (ord c =? 181) || between 185 186 c
  || between 188 190 c || between 192 214 c || between 216 246 c
  || between 248 255 c.

(** [\w] in a [str] pattern: the underscore and the characters for which
    [str.isalnum] holds. *)
Definition is_word (c : ascii) : bool :=
  is_digit c || is_lower c || is_upper c || (ord c =? 95)
  || is_latin1_alnum c.

(** [\s] in a [str] pattern: the characters for which [str.isspace] holds,
    among them U+0085 and U+00A0. *)
Definition is_space (c : ascii) : bool :=
  between 9 13 c || between 28 32 c || (ord c =? 133) || (ord c =? 160).

(** [.] without [re.DOTALL]: anything but a line feed. *)
Definition is_dot (c : ascii) : bool := negb (Ascii.eqb c LF).

(** The lower-case letters from U+00E0 to U+00FE, the division sign
    excepted, whose upper-case letters stand 32 places before them. *)
Definition is_latin1_lower (c : ascii) : bool :=
  between 224 254 c && negb (ord c =? 247).

(** [str.upper], character by character.  Three characters of the range
    have an upper-case form that is not one character of the range: U+00DF
    gives ["SS"], U+00B5 gives U+039C and U+00FF gives U+0178.  They are
    kept as they are; [upper_points] below gives their code points, and
    [from_str_unicode_eq] shows that the classifier decides the same. *)
Definition upper_char (c : ascii) : ascii :=
  if is_lower c || is_latin1_lower c then ascii_of_nat (ord c - 32) else c.

Definition upper (s : text) : text := map upper_char s.

Fixpoint text_eqb (a b : text) : bool :=
  match a, b with
  | [], [] => true
  | x :: a', y :: b' => Ascii.eqb x y && text_eqb a' b'
  | _, _ => false
  end.

(** [s.startswith(p)] *)
Fixpoint startswith (s p : text) {struct p} : bool :=
  match p, s with
  | [], _ => true
  | _ :: _, [] => false
  | x :: p', y :: s' => Ascii.eqb x y && startswith s' p'
  end.

(** [s.startswith((p1, ..., pn))]: a tuple of prefixes. *)
Definition startswith_any (s : text) (ps : list text) : bool :=
  existsb (startswith s) ps.

(** [sep.join(parts)] *)
Fixpoint join (sep : text) (parts : list text) : text :=
  match parts with
  | [] => []
  | [p] => p
  | p :: rest => p ++ sep ++ join sep rest
  end.

(** ** Exceptions

    An exception is its class and its argument tuple; [str(e)] of an
    exception without arguments is the empty string. *)

Inductive exception : Type :=
| AssertionError (args : list text)
| ValueError (args : list text)
| IndexError (args : list text).

Definition exc_args (e : exception) : list text :=
  match e with
  | AssertionError a | ValueError a | IndexError a => a
  end.

Definition result (A : Type) : Type := (exception + A)%type.

Definition ret {A} (x : A) : result A := inr x.
Definition raise {A} (e : exception) : result A := inl e.

Definition bind {A B} (m : result A) (f : A -> result B) : result B :=
  match m with
  | inl e => inl e
  | inr x => f x
  end.

Notation "x <- m ;; k" := (bind m (fun x => k))
  (at level 61, m at next level, right associativity).

Fixpoint mapM {A B} (f : A -> result B) (l : list A) : result (list B) :=
  match l with
  | [] => ret []
  | x :: t => y <- f x ;; ys <- mapM f t ;; ret (y :: ys)
  end.

(** ** MemoryPermissions *)

Inductive MemoryPermissions : Type := RO | RW | WO.

(** The enumeration's values. *)
Definition perm_value (p : MemoryPermissions) : text :=
  match p with
  | RO => txt "ReadOnly<u32>"
  | RW => txt "ReadWrite<u32>"
  | WO => txt "WriteOnly<u32>"
  end.

(** [MemoryPermissions.from_str] *)
Definition from_str (permissions : text) : result MemoryPermissions :=
  let permissions := upper permissions in
  if startswith_any permissions
       [txt "R/W"; txt "RW"; txt "Read/Write"; txt "RWC"]
  then ret RW
  else if startswith permissions (txt "RO") then ret RO
  else if startswith permissions (txt "WO") then ret WO
  else raise (ValueError []).

(** [MemoryPermissions.emit_code] *)
Definition perm_emit_code (p : MemoryPermissions) : text := perm_value p.


(** ** Integers and hexadecimal text *)

(** White space skipped by [int] around a literal: the white space of C
    and, of the characters from U+0080 on, those for which [str.isspace]
    holds. *)
Definition is_int_space (c : ascii) : bool :=
  between 9 13 c || (ord c =? 32) || (ord c =? 133) || (ord c =? 160).

Fixpoint lstrip (s : text) : text :=
  match s with
  | c :: t => if is_int_space c then lstrip t else s
  | [] => []
  end.

Definition strip (s : text) : text := rev (lstrip (rev (lstrip s))).

Definition hex_digit_value (c : ascii) : option Z :=
  if is_digit c then Some (Z.of_nat (ord c - 48))
  else if between 97 102 c then Some (Z.of_nat (ord c - 87))
  else if between 65 70 c then Some (Z.of_nat (ord c - 55))
  else None.

Definition is_hex (c : ascii) : bool :=
  match hex_digit_value c with Some _ => true | None => false end.

Definition is_underscore (c : ascii) : bool := ord c =? 95.

(** The digits of a literal, most significant first; single underscores may
    separate digits, none may end the literal. [prev] tells whether the
    previous character was an underscore. *)
Fixpoint digits16 (acc : Z) (prev : bool) (s : text) : option Z :=
  match s with
  | [] => if prev then None else Some acc
  | c :: t =>
      if is_underscore c then
        if prev then None else digits16 acc true t
      else
        match hex_digit_value c with
        | Some d => digits16 (16 * acc + d) false t
        | None => None
        end
  end.

Definition split_sign (s : text) : bool * text :=
  match s with
  | c :: t =>
      if ord c =? 43 then (false, t)
      else if ord c =? 45 then (true, t)
      else (false, s)
  | [] => (false, s)
  end.

(** A [0x] or [0X] prefix is skipped, and one underscore after it. *)
Definition skip_prefix (s : text) : text :=
  match s with
  | z :: x :: t =>
      if (ord z =? 48) && ((ord x =? 120) || (ord x =? 88)) then
        match t with
        | u :: t' => if is_underscore u then t' else t
        | [] => t
        end
      else s
  | _ => s
  end.

(** The value of [int(s, 16)] when the literal is valid. *)
Definition parse_int16 (s : text) : option Z :=
  let '(neg, body) := split_sign (strip s) in
  let body := skip_prefix body in
  match body with
  | c :: _ =>
      if is_hex c then
        match digits16 0 false body with
        | Some n => Some (if neg then (- n)%Z else n)
        | None => None
        end
      else None
  | [] => None
  end.

(** [repr] of a text without quotes, backslashes or control characters. *)
Definition repr (s : text) : text := txt "'" ++ s ++ txt "'".

(** [int(s, 16)] *)
Definition int16 (s : text) : result Z :=
  match parse_int16 s with
  | Some n => ret n
  | None =>
      raise (ValueError
               [txt "invalid literal for int() with base 16: " ++ repr s])
  end.

Definition hex_char (d : Z) : ascii :=
  if (d <? 10)%Z then ascii_of_nat (48 + Z.to_nat d)
  else ascii_of_nat (55 + Z.to_nat d).

Fixpoint hex_digits (fuel : nat) (n : Z) (acc : text) : text :=
  match fuel with
  | O => acc
  | S fuel' =>
      let acc' := hex_char (n mod 16) :: acc in
      if (n <? 16)%Z then acc' else hex_digits fuel' (n / 16) acc'
  end.

(** The digits of a non-negative number in upper-case hexadecimal; a number
    below [2 ^ (k + 1)] has at most [k + 1] digits. *)
Definition hex_of_nonneg (n : Z) : text :=
  hex_digits (S (Z.to_nat (Z.log2 n))) n [].

(** [format(n, 'X')], the rendering of [{n:X}] in an f-string. *)
Definition format_X (n : Z) : text :=
  if (n <? 0)%Z then txt "-" ++ hex_of_nonneg (- n)
  else hex_of_nonneg n.

(** ** Register *)

Record Register : Type := mkRegister {
  name : text;
  offset : text;
  perms : MemoryPermissions
}.

(** [Register.__new__] *)
Definition Register_new (name offset perms : text) : result Register :=
  n <- int16 offset ;;
  let offset := txt "0x" ++ format_X n in
  perms <- from_str perms ;;
  ret (mkRegister name offset perms).

(** [Register.emit_code] *)
Definition emit_code (self : Register) : text :=
  txt "(" ++ offset self ++ txt " => pub " ++ name self ++ txt ": "
    ++ perm_emit_code (perms self) ++ txt "),".

(** ** Regular expressions

    The fragment of Python's [re] that the two patterns use: character
    classes, concatenation, greedy repetition, a greedy optional part and
    capturing groups.  [run r st] lists, in the order in which the
    backtracking matcher of [re] tries them, the states reachable by matching
    [r] at the front of the remaining text; the match found is the first
    one.  A repetition stops at an iteration that consumes nothing. *)

Inductive regex : Type :=
| Eps
| Chr (p : ascii -> bool)
| Seq (r1 r2 : regex)
| Alt (r1 r2 : regex)
| Star (r : regex)
| Group (n : nat) (r : regex).

(** [r+] *)
Definition Plus (r : regex) : regex := Seq r (Star r).

(** [r?] *)
Definition Opt (r : regex) : regex := Alt r Eps.

(** A literal text. *)
Definition Lit (s : text) : regex :=
  fold_right (fun c r => Seq (Chr (Ascii.eqb c)) r) Eps s.

Definition captures := list (nat * text).

(** The remaining text and the groups captured so far, latest first. *)
Definition mstate : Type := (text * captures)%type.

Definition consumed (before after : text) : text :=
  firstn (length before - length after) before.

Fixpoint run (r : regex) (st : mstate) : list mstate :=
  match r with
  | Eps => [st]
  | Chr p =>
      match fst st with
      | c :: s' => if p c then [(s', snd st)] else []
      | [] => []
      end
  | Seq r1 r2 => flat_map (run r2) (run r1 st)
  | Alt r1 r2 => run r1 st ++ run r2 st
  | Star r1 =>
      (fix star (fuel : nat) (st : mstate) {struct fuel} : list mstate :=
         match fuel with
         | O => [st]
         | S fuel' =>
             flat_map
               (fun st' =>
                  if length (fst st') <? length (fst st)
                  then star fuel' st' else [])
               (run r1 st)
             ++ [st]
         end) (length (fst st)) st
  | Group n r1 =>
      map (fun st' => (fst st', (n, consumed (fst st) (fst st')) :: snd st'))
          (run r1 st)
  end.

(** A match object: the text of the whole match and of the groups. *)
Record Match : Type := mkMatch {
  span : text;
  groups : captures
}.

Fixpoint lookup (n : nat) (caps : captures) : option text :=
  match caps with
  | [] => None
  | (k, v) :: rest => if k =? n then Some v else lookup n rest
  end.

(** [m.group(i)]; [None] for a group that took no part in the match. *)
Definition group (m : Match) (i : nat) : option text :=
  match i with
  | O => Some (span m)
  | _ => lookup i (groups m)
  end.

Definition match_at (r : regex) (s : text) : option Match :=
  match run r (s, []) with
  | (s', caps) :: _ => Some (mkMatch (consumed s s') caps)
  | [] => None
  end.

(** [r.search(s)]: the match at the leftmost position that has one. *)
Fixpoint search (r : regex) (s : text) : option Match :=
  match match_at r s with
  | Some m => Some m
  | None =>
      match s with
      | [] => None
      | _ :: s' => search r s'
      end
  end.

(** [re.fullmatch(r, s)] as a truth value: some way of matching [r] uses up
    the whole text. *)
Definition fullmatch (r : regex) (s : text) : bool :=
  existsb (fun st => match fst st with [] => true | _ => false end)
          (run r (s, [])).

(** ** The patterns *)

Definition is_digit_or_dot (c : ascii) : bool := is_digit c || (ord c =? 46).

(** [(\d[\d\.]+\d)\s+(\w+)(?:\n(.+))?\n]; the flag [re.MULTILINE] bears
    on [^] and [$] only, which the pattern does not use. *)
Definition REGISTER_PATTERN : regex :=
  Seq (Group 1 (Seq (Chr is_digit)
                    (Seq (Plus (Chr is_digit_or_dot)) (Chr is_digit))))
 (Seq (Plus (Chr is_space))
 (Seq (Group 2 (Plus (Chr is_word)))
 (Seq (Opt (Seq (Chr (Ascii.eqb LF)) (Group 3 (Plus (Chr is_dot)))))
      (Chr (Ascii.eqb LF))))).

(** The class [[0-9a-fA-Fx]]. *)
Definition is_offset_char (c : ascii) : bool := is_hex c || (ord c =? 120).

(** The class [[\|I]]. *)
Definition is_separator (c : ascii) : bool := (ord c =? 124) || (ord c =? 73).

(** The class [[\w\/]]. *)
Definition is_perm_char (c : ascii) : bool := is_word c || (ord c =? 47).

(** [Offset:\s+([0-9a-fA-Fx]+)\s+[\|I]\s+Read\/Write:\s([\w\/]+)] *)
Definition REGISTER_META_PATTERN : regex :=
  Seq (Lit (txt "Offset:"))
 (Seq (Plus (Chr is_space))
 (Seq (Group 1 (Plus (Chr is_offset_char)))
 (Seq (Plus (Chr is_space))
 (Seq (Chr is_separator)
 (Seq (Plus (Chr is_space))
 (Seq (Lit (txt "Read/Write:"))
 (Seq (Chr is_space)
      (Group 2 (Plus (Chr is_perm_char)))))))))).

(** [\d+\n] *)
Definition digit_line : regex := Seq (Plus (Chr is_digit)) (Chr (Ascii.eqb LF)).

(** [(?:\d+\n)*] *)
Definition DIGIT_LINES : regex := Star digit_line.

(** A match of [REGISTER_PATTERN]: the whole match, the chapter, the
    register name and the description, which is [None] when the optional
    line took no part in the match. *)
Record RegisterMatch : Type := mkRegisterMatch {
  reg_group0 : text;
  reg_group1 : text;
  reg_group2 : text;
  reg_group3 : option text
}.

(** A match of [REGISTER_META_PATTERN]: the whole match, the offset and the
    permissions. *)
Record RegisterMetaMatch : Type := mkRegisterMetaMatch {
  meta_group0 : text;
  meta_group1 : text;
  meta_group2 : text
}.

Definition as_register_match (m : Match) : option RegisterMatch :=
  match group m 1, group m 2 with
  | Some g1, Some g2 => Some (mkRegisterMatch (span m) g1 g2 (group m 3))
  | _, _ => None
  end.

Definition as_register_meta_match (m : Match) : option RegisterMetaMatch :=
  match group m 1, group m 2 with
  | Some g1, Some g2 => Some (mkRegisterMetaMatch (span m) g1 g2)
  | _, _ => None
  end.

(** [REGISTER_PATTERN.search(element)] *)
Definition search_register (element : text) : option RegisterMatch :=
  match search REGISTER_PATTERN element with
  | Some m => as_register_match m
  | None => None
  end.

(** [REGISTER_META_PATTERN.search(element)] *)
Definition search_register_meta (element : text) : option RegisterMetaMatch :=
  match search REGISTER_META_PATTERN element with
  | Some m => as_register_meta_match m
  | None => None
  end.

(** [Register.from_regex_match] *)
Definition from_regex_match (register : RegisterMatch)
    (register_meta : RegisterMetaMatch) : result Register :=
  Register_new (reg_group2 register)
               (meta_group1 register_meta) (meta_group2 register_meta).

(** ** Pattern extractor *)

(** A layout element: a horizontal text box with its text, or anything
    else (figures, images, vertical text, lines). *)
Inductive element : Type :=
| LTTextBoxHorizontal (get_text : text)
| LTOther.

Definition extract_step
    (acc : list RegisterMatch * list RegisterMetaMatch) (e : element)
    : list RegisterMatch * list RegisterMetaMatch :=
  let '(registers, register_metas) := acc in
  match e with
  | LTOther => acc
  | LTTextBoxHorizontal element =>
      let registers :=
        match search_register element with
        | Some register =>
            if negb (fullmatch DIGIT_LINES (reg_group0 register))
            then registers ++ [register]
            else registers
        | None => registers
        end in
      let register_metas :=
        match search_register_meta element with
        | Some meta => register_metas ++ [meta]
        | None => register_metas
        end in
      (registers, register_metas)
  end.

(** [extract_registers] *)
Definition extract_registers (layout : list element)
    : list RegisterMatch * list RegisterMetaMatch :=
  fold_left extract_step layout ([], []).

(** ** Code emitter *)

(** [FMT.format(members)] *)
Definition FMT_format (members : text) : text :=
  txt "use register::{mmio::*, register_structs};" ++ [LF]
  ++ [LF]
  ++ txt "register_structs! {" ++ [LF]
  ++ txt "    #[allow(non_snake_case)]" ++ [LF]
  ++ txt "    pub Registers {" ++ [LF]
  ++ txt "        " ++ members ++ [LF]
  ++ txt "    }" ++ [LF]
  ++ txt "}" ++ [LF]
  ++ [LF].

(** The files written so far, latest first: path and content. *)
Definition filesystem : Type := list (text * text).

(** [open(path, 'w')] followed by [f.write(content)]: the file holds the
    content and nothing else. *)
Definition write_file (fs : filesystem) (path content : text) : filesystem :=
  (path, content) :: filter (fun e => negb (text_eqb (fst e) path)) fs.

Fixpoint read_file (fs : filesystem) (path : text) : option text :=
  match fs with
  | [] => None
  | (p, c) :: rest => if text_eqb p path then Some c else read_file rest path
  end.

(** The loop that parses and stores the registers: it ends when [pop(0)]
    raises [IndexError] on either list; an error of [Register] is not
    caught. *)
Fixpoint parse_registers (register_matches : list RegisterMatch)
    (register_meta_matches : list RegisterMetaMatch)
    (registers : list Register) : result (list Register) :=
  match register_matches, register_meta_matches with
  | register :: register_matches', register_meta :: register_meta_matches' =>
      r <- from_regex_match register register_meta ;;
      parse_registers register_matches' register_meta_matches'
                      (registers ++ [r])
  | _, _ => ret registers
  end.

(** [registers[-1]] *)
Definition last_register (registers : list Register) : result Register :=
  match rev registers with
  | r :: _ => ret r
  | [] => raise (IndexError [txt "list index out of range"])
  end.

Definition final_offset (registers : list Register) : result Z :=
  r <- last_register registers ;;
  n <- int16 (offset r) ;;
  ret (n + 4)%Z.

Definition terminator (registers : list Register) : result text :=
  n <- final_offset registers ;;
  ret (txt "(0x" ++ format_X n ++ txt " => @END),").

(** [sorted(l, key=...)] is a stable sort by the keys, which are computed
    once for every element, in order, before any comparison.  Insertion
    from the right, before the first element whose key is not smaller,
    yields the stable order. *)
Fixpoint insert_by_key {A} (x : Z * A) (l : list (Z * A)) : list (Z * A) :=
  match l with
  | [] => [x]
  | y :: t =>
      if (fst y <? fst x)%Z then y :: insert_by_key x t else x :: y :: t
  end.

Definition sort_by_key {A} (l : list (Z * A)) : list (Z * A) :=
  fold_right insert_by_key [] l.

Definition offset_key (reg : Register) : result (Z * Register) :=
  n <- int16 (offset reg) ;; ret (n, reg).

Definition sorted_registers (registers : list Register)
    : result (list Register) :=
  keyed <- mapM offset_key registers ;;
  ret (map snd (sort_by_key keyed)).

Definition register_structs_members (registers : list Register)
    : result (list text) :=
  t <- terminator registers ;;
  regs <- sorted_registers registers ;;
  ret (map emit_code regs ++ [t]).

(** [generate_code]: the outcome and the file system after the call. *)
Definition generate_code (fs : filesystem) (output : text)
    (register_matches : list RegisterMatch)
    (register_meta_matches : list RegisterMetaMatch)
    : result unit * filesystem :=
  if negb (length register_matches =? length register_meta_matches)
  then (raise (AssertionError []), fs)
  else
    match
      (registers <- parse_registers register_matches
                                    register_meta_matches [] ;;
       members <- register_structs_members registers ;;
       ret (FMT_format (join [LF] members)))
    with
    | inl e => (inl e, fs)
    | inr code => (ret tt, write_file fs output code)
    end.

(** ** Main *)

(** The matches of all the pages, in the order the pages are processed. *)
Definition collect_matches (pages : list (list element))
    : list RegisterMatch * list RegisterMetaMatch :=
  fold_left
    (fun acc layout =>
       let '(registers, register_metas) := extract_registers layout in
       (fst acc ++ registers, snd acc ++ register_metas))
    pages ([], []).

(** [main], given the layouts of the requested pages. *)
Definition main (fs : filesystem) (pages : list (list element))
    (output : text) : result unit * filesystem :=
  let '(register_matches, register_meta_matches) := collect_matches pages in
  generate_code fs output register_matches register_meta_matches.

(** ** Definitions used to state the properties *)

(** The classification as the specification words it: the descriptor is
    compared with the known prefixes without regard to case. *)
Definition spec_starts_with (d p : text) : bool :=
  startswith (upper d) (upper p).

Definition spec_classify (d : text) : option MemoryPermissions :=
  if existsb (spec_starts_with d)
       [txt "R/W"; txt "RW"; txt "Read/Write"; txt "RWC"]
  then Some RW
  else if spec_starts_with d (txt "RO") then Some RO
  else if spec_starts_with d (txt "WO") then Some WO
  else None.

(** The numeric offsets of registers, in order. *)
Definition numeric_offsets (registers : list Register) : result (list Z) :=
  mapM (fun reg => int16 (offset reg)) registers.

(** The largest of a non-empty list of offsets. *)
Definition max_offset (offs : list Z) : Z :=
  match offs with
  | [] => 0%Z
  | o :: rest => fold_left Z.max rest o
  end.

(** The decimal rendering of a count. *)
Definition decimal (n : nat) : text :=
  txt (DecimalString.NilZero.string_of_uint (Nat.to_uint n)).

Definition occurs_in (needle hay : text) : Prop :=
  exists before after, hay = before ++ needle ++ after.

(** An exception reports two counts when one of its arguments mentions
    both of them. *)
Definition reports_counts (e : exception) (n m : nat) : Prop :=
  exists arg,
    In arg (exc_args e) /\ occurs_in (decimal n) arg
    /\ occurs_in (decimal m) arg.

(** A run of lines, each made of one digit or more and a line feed. *)
Inductive digit_lines : text -> Prop :=
| digit_lines_nil : digit_lines []
| digit_lines_cons : forall ds rest,
    ds <> [] ->
    Forall (fun c => is_digit c = true) ds ->
    digit_lines rest ->
    digit_lines (ds ++ LF :: rest).

Definition is_upper_hex (c : ascii) : bool := is_digit c || between 65 70 c.

(** The repetition of [run], with its fuel. *)
Section Repetition.

Variable r : regex.

Fixpoint star_run (fuel : nat) (st : mstate) : list mstate :=
  match fuel with
  | O => [st]
  | S fuel' =>
      flat_map
        (fun st' =>
           if length (fst st') <? length (fst st)
           then star_run fuel' st' else [])
        (run r st)
      ++ [st]
  end.

End Repetition.

(** The texts a pattern matches, whatever the order of the attempts. *)
Inductive lang : regex -> text -> Prop :=
| lang_eps : lang Eps []
| lang_chr : forall (p : ascii -> bool) c, p c = true -> lang (Chr p) [c]
| lang_seq : forall r1 r2 w1 w2,
    lang r1 w1 -> lang r2 w2 -> lang (Seq r1 r2) (w1 ++ w2)
| lang_alt_l : forall r1 r2 w, lang r1 w -> lang (Alt r1 r2) w
| lang_alt_r : forall r1 r2 w, lang r2 w -> lang (Alt r1 r2) w
| lang_star_nil : forall r, lang (Star r) []
| lang_star_cons : forall r w1 w2,
    lang r w1 -> lang (Star r) w2 -> lang (Star r) (w1 ++ w2)
| lang_group : forall n r w, lang r w -> lang (Group n r) w.

(** [group_of r n r']: the group numbered [n] of [r] has the body [r']. *)
Inductive group_of : regex -> nat -> regex -> Prop :=
| group_here : forall n r, group_of (Group n r) n r
| group_inside : forall n r m r', group_of r m r' -> group_of (Group n r) m r'
| group_seq_l : forall r1 r2 m r', group_of r1 m r' -> group_of (Seq r1 r2) m r'
| group_seq_r : forall r1 r2 m r', group_of r2 m r' -> group_of (Seq r1 r2) m r'
| group_alt_l : forall r1 r2 m r', group_of r1 m r' -> group_of (Alt r1 r2) m r'
| group_alt_r : forall r1 r2 m r', group_of r2 m r' -> group_of (Alt r1 r2) m r'
| group_star : forall r m r', group_of r m r' -> group_of (Star r) m r'.

(** The groups that take part in every match of a pattern. *)
Fixpoint always_sets (r : regex) (n : nat) : bool :=
  match r with
  | Eps | Chr _ | Star _ => false
  | Seq r1 r2 => always_sets r1 n || always_sets r2 n
  | Alt r1 r2 => always_sets r1 n && always_sets r2 n
  | Group k r1 => (k =? n) || always_sets r1 n
  end.

(** ** The scenario of two pages *)

Definition block_enb : text :=
  txt "2.1 CLK_OUT_ENB" ++ [LF] ++ txt "Offset: 0x30 | Read/Write: R/W" ++ [LF].

Definition block_dis : text :=
  txt "2.2 CLK_OUT_DIS" ++ [LF] ++ txt "Offset: 0x10 | Read/Write: RO" ++ [LF].

Definition page1 : list element := [LTTextBoxHorizontal block_enb].
Definition page2 : list element := [LTTextBoxHorizontal block_dis].

Definition heading_enb : RegisterMatch :=
  mkRegisterMatch block_enb (txt "2.1") (txt "CLK_OUT_ENB")
                  (Some (txt "Offset: 0x30 | Read/Write: R/W")).

Definition heading_dis : RegisterMatch :=
  mkRegisterMatch block_dis (txt "2.2") (txt "CLK_OUT_DIS")
                  (Some (txt "Offset: 0x10 | Read/Write: RO")).

Definition meta_enb : RegisterMetaMatch :=
  mkRegisterMetaMatch (txt "Offset: 0x30 | Read/Write: R/W")
                      (txt "0x30") (txt "R/W").

Definition meta_dis : RegisterMetaMatch :=
  mkRegisterMetaMatch (txt "Offset: 0x10 | Read/Write: RO")
                      (txt "0x10") (txt "RO").

Definition registers_rs : text := txt "registers.rs".

(** The document the code writes for the two pages. *)
Definition scenario_document : text :=
  join [LF]
    [txt "use register::{mmio::*, register_structs};";
     txt "";
     txt "register_structs! {";
     txt "    #[allow(non_snake_case)]";
     txt "    pub Registers {";
     txt "        (0x10 => pub CLK_OUT_DIS: ReadOnly<u32>),";
     txt "(0x30 => pub CLK_OUT_ENB: ReadWrite<u32>),";
     txt "(0x14 => @END),";
     txt "    }";
     txt "}";
     txt "";
     txt ""].

(** ** Registers that share an offset *)

Definition heading_a : RegisterMatch :=
  mkRegisterMatch (txt "3.1 REG_A" ++ [LF]) (txt "3.1") (txt "REG_A") None.

Definition heading_b : RegisterMatch :=
  mkRegisterMatch (txt "7.1 REG_B" ++ [LF]) (txt "7.1") (txt "REG_B") None.

Definition heading_c : RegisterMatch :=
  mkRegisterMatch (txt "7.2 REG_C" ++ [LF]) (txt "7.2") (txt "REG_C") None.

Definition meta_10 : RegisterMetaMatch :=
  mkRegisterMetaMatch (txt "Offset: 0x10 | Read/Write: R/W")
                      (txt "0x10") (txt "R/W").

Definition meta_20 : RegisterMetaMatch :=
  mkRegisterMetaMatch (txt "Offset: 0x20 | Read/Write: R/W")
                      (txt "0x20") (txt "R/W").

(** ** Hexadecimal numerals, by their characters

    What a numeral denotes and how its value is written, stated on the
    characters alone: nothing here goes through [int16] or [format_X]. *)

Definition HEX_DIGITS : text := txt "0123456789ABCDEF".

Fixpoint index_of (c : ascii) (l : text) : option nat :=
  match l with
  | [] => None
  | x :: rest =>
      if Ascii.eqb x c then Some O
      else match index_of c rest with
           | Some i => Some (S i)
           | None => None
           end
  end.

(** A hexadecimal digit in either case. *)
Definition hex_digit (c : ascii) : bool :=
  match index_of (upper_char c) HEX_DIGITS with
  | Some _ => true
  | None => false
  end.

(** The value of a digit is its place among the sixteen digits. *)
Definition digit_place (c : ascii) : Z :=
  match index_of (upper_char c) HEX_DIGITS with
  | Some i => Z.of_nat i
  | None => 0%Z
  end.

(** The number that a run of digits denotes in base 16. *)
Definition numeral_value (digits : text) : Z :=
  fold_left (fun acc c => (16 * acc + digit_place c)%Z) digits 0%Z.

(** A hexadecimal numeral as the metadata pattern can capture one: one
    digit or more, in any casing, with or without ["0x"] before them. *)
Definition hex_numeral (lit digits : text) : Prop :=
  (lit = digits \/ lit = txt "0x" ++ digits)
  /\ digits <> []
  /\ Forall (fun c => hex_digit c = true) digits.

(** The digits without their leading zeros; the last digit stays. *)
Fixpoint strip_zeros (t : text) : text :=
  match t with
  | [] => []
  | c :: rest =>
      match rest with
      | [] => t
      | _ :: _ => if Ascii.eqb c "0" then strip_zeros rest else t
      end
  end.

(** A numeral without needless zeros: upper-case digits, and a zero in
    front only when it is the only digit. *)
Definition canonical (t : text) : Prop :=
  t <> []
  /\ Forall (fun c => is_upper_hex c = true) t
  /\ forall rest, t = "0"%char :: rest -> rest = [].

(** ** The classifier on code points

    [str.upper] as Python computes it on the characters of the range, in
    code points, and the classifier over it. *)

Definition upper_points (c : ascii) : list N :=
  if ord c =? 223 then [83; 83]%N
  else if ord c =? 181 then [924]%N
  else if ord c =? 255 then [376]%N
  else [N_of_ascii (upper_char c)].

Definition upper_unicode (s : text) : list N := flat_map upper_points s.

Definition points (s : text) : list N := map N_of_ascii s.

Fixpoint startswith_points (s p : list N) {struct p} : bool :=
  match p, s with
  | [], _ => true
  | _ :: _, [] => false
  | x :: p', y :: s' => N.eqb x y && startswith_points s' p'
  end.

Definition from_str_unicode (permissions : text) : result MemoryPermissions :=
  let permissions := upper_unicode permissions in
  if existsb (fun p => startswith_points permissions (points p))
       [txt "R/W"; txt "RW"; txt "Read/Write"; txt "RWC"]
  then ret RW
  else if startswith_points permissions (points (txt "RO")) then ret RO
  else if startswith_points permissions (points (txt "WO")) then ret WO
  else raise (ValueError []).

(** A character below U+0080 other than ["S"]. *)
Definition is_plain (x : ascii) : bool := (ord x <? 128) && negb (ord x =? 83).

(** ** Definitions used to state further properties *)

Definition is_text_box (e : element) : bool :=
  match e with
  | LTTextBoxHorizontal _ => true
  | LTOther => false
  end.

(** The registers whose stored offset has the value [k]. *)
Definition at_offset (k : Z) (reg : Register) : bool :=
  match parse_int16 (offset reg) with
  | Some n => (n =? k)%Z
  | None => false
  end.

(** A register whose stored offset is ["0x"] followed by the upper-case
    hexadecimal digits of a non-negative number. *)
Definition normalized (reg : Register) : Prop :=
  exists n, (0 <= n)%Z /\ offset reg = txt "0x" ++ hex_of_nonneg n.

(** * Properties *)

(** ** Characters *)

#[local] Arguments Ascii.eqb : simpl never.

Ltac all_chars c := destruct c as [[] [] [] [] [] [] [] []].

Lemma offset_char_not_space (c : ascii) :
  is_offset_char c = true -> is_int_space c = false.
Proof. all_chars c; vm_compute; congruence. Qed.

Lemma offset_char_not_sign (c : ascii) :
  is_offset_char c = true -> (ord c =? 43) = false /\ (ord c =? 45) = false.
Proof. all_chars c; vm_compute; intuition congruence. Qed.

Lemma upper_hex_is_hex (c : ascii) : is_upper_hex c = true -> is_hex c = true.
Proof. all_chars c; vm_compute; congruence. Qed.

Lemma upper_hex_not_space (c : ascii) :
  is_upper_hex c = true -> is_int_space c = false.
Proof. all_chars c; vm_compute; congruence. Qed.

Lemma upper_hex_not_underscore (c : ascii) :
  is_upper_hex c = true -> is_underscore c = false.
Proof. all_chars c; vm_compute; congruence. Qed.

Lemma hex_value_range (c : ascii) (d : Z) :
  hex_digit_value c = Some d -> (0 <= d < 16)%Z.
Proof. all_chars c; vm_compute; intros H; inversion H; intuition congruence. Qed.

Lemma hex_char_value (d : Z) :
  (0 <= d < 16)%Z ->
  hex_digit_value (hex_char d) = Some d /\ is_upper_hex (hex_char d) = true.
Proof.
  intros H.
  assert (E : In d [0; 1; 2; 3; 4; 5; 6; 7; 8; 9; 10; 11; 12; 13; 14; 15]%Z).
  { simpl. lia. }
  simpl in E.
  repeat (destruct E as [E | E]; [subst d; split; reflexivity |]).
  contradiction.
Qed.

(** ** Hexadecimal text *)

Lemma digits16_nonneg (s : text) :
  forall acc prev n,
    (0 <= acc)%Z -> digits16 acc prev s = Some n -> (0 <= n)%Z.
Proof.
  induction s as [| c t IH]; intros acc prev n Hacc H; cbn [digits16] in H.
  - destruct prev; [discriminate | inversion H; subst; assumption].
  - destruct (is_underscore c).
    + destruct prev; [discriminate | eapply IH; eassumption].
    + destruct (hex_digit_value c) as [d |] eqn:Hd; [| discriminate].
      apply hex_value_range in Hd.
      eapply IH; [| eassumption]. lia.
Qed.

Lemma hex_digits_parse (fuel : nat) :
  forall n acc,
    (0 <= n < 16 ^ Z.of_nat fuel)%Z ->
    digits16 0 false (hex_digits fuel n acc) = digits16 n false acc.
Proof.
  induction fuel as [| fuel IH]; intros n acc Hn.
  - simpl in *. assert (n = 0%Z) by lia. subst. reflexivity.
  - rewrite Nat2Z.inj_succ, Z.pow_succ_r in Hn by lia.
    cbn [hex_digits].
    assert (Hm : (0 <= n mod 16 < 16)%Z) by (apply Z.mod_pos_bound; lia).
    destruct (hex_char_value _ Hm) as [Hv Hu].
    apply upper_hex_not_underscore in Hu.
    destruct (n <? 16)%Z eqn:Hlt.
    + apply Z.ltb_lt in Hlt.
      cbn [digits16]. rewrite Hu, Hv.
      rewrite Z.mod_small by lia. reflexivity.
    + apply Z.ltb_ge in Hlt.
      rewrite IH.
      * cbn [digits16]. rewrite Hu, Hv.
        f_equal. pose proof (Z.div_mod n 16). lia.
      * split; [apply Z.div_pos; lia |].
        apply Z.div_lt_upper_bound; lia.
Qed.

Lemma hex_digits_upper (fuel : nat) :
  forall n acc,
    Forall (fun c => is_upper_hex c = true) acc ->
    Forall (fun c => is_upper_hex c = true) (hex_digits fuel n acc).
Proof.
  induction fuel as [| fuel IH]; intros n acc Hacc; [exact Hacc |].
  cbn [hex_digits].
  assert (Hm : (0 <= n mod 16 < 16)%Z) by (apply Z.mod_pos_bound; lia).
  destruct (hex_char_value _ Hm) as [_ Hu].
  destruct (n <? 16)%Z; [| apply IH]; constructor; assumption.
Qed.

Lemma hex_digits_nonempty (fuel : nat) :
  forall n acc, acc <> [] -> hex_digits fuel n acc <> [].
Proof.
  induction fuel as [| fuel IH]; intros n acc Hacc; [exact Hacc |].
  cbn [hex_digits].
  destruct (n <? 16)%Z; [| apply IH]; discriminate.
Qed.

Lemma hex_of_nonneg_upper (n : Z) :
  Forall (fun c => is_upper_hex c = true) (hex_of_nonneg n).
Proof. apply hex_digits_upper. constructor. Qed.

Lemma hex_of_nonneg_nonempty (n : Z) : hex_of_nonneg n <> [].
Proof.
  unfold hex_of_nonneg. cbn [hex_digits].
  destruct (n <? 16)%Z; [| apply hex_digits_nonempty]; discriminate.
Qed.

Lemma hex_of_nonneg_parse (n : Z) :
  (0 <= n)%Z -> digits16 0 false (hex_of_nonneg n) = Some n.
Proof.
  intros Hn. unfold hex_of_nonneg.
  rewrite hex_digits_parse; [reflexivity |].
  split; [assumption |].
  rewrite Nat2Z.inj_succ, Z2Nat.id by apply Z.log2_nonneg.
  destruct (Z.eq_dec n 0) as [-> | Hz]; [reflexivity |].
  apply Z.lt_le_trans with (2 ^ Z.succ (Z.log2 n))%Z.
  - apply Z.log2_spec. lia.
  - apply Z.pow_le_mono_l. lia.
Qed.

(** ** Stripping *)

Lemma lstrip_id (s : text) :
  Forall (fun c => is_int_space c = false) s -> lstrip s = s.
Proof.
  intros H. destruct H as [| c t Hc Ht]; [reflexivity |].
  simpl. rewrite Hc. reflexivity.
Qed.

Lemma strip_id (s : text) :
  Forall (fun c => is_int_space c = false) s -> strip s = s.
Proof.
  intros H. unfold strip.
  rewrite (lstrip_id s H).
  rewrite lstrip_id by (apply Forall_rev; exact H).
  apply rev_involutive.
Qed.

(** ** Parsing what was rendered *)

Lemma parse_rendered (n : Z) :
  (0 <= n)%Z -> parse_int16 (txt "0x" ++ hex_of_nonneg n) = Some n.
Proof.
  intros Hn.
  pose proof (hex_of_nonneg_upper n) as Hu.
  pose proof (hex_of_nonneg_nonempty n) as Hne.
  pose proof (hex_of_nonneg_parse n Hn) as Hp.
  unfold parse_int16.
  rewrite strip_id.
  - destruct (hex_of_nonneg n) as [| c t]; [congruence |].
    inversion Hu as [| ? ? Hc Ht]; subst.
    change (txt "0x" ++ c :: t) with ("0"%char :: "x"%char :: c :: t).
    cbn [split_sign]. change (ord "0" =? 43) with false.
    change (ord "0" =? 45) with false. cbv iota.
    cbn [skip_prefix].
    change ((ord "0" =? 48) && ((ord "x" =? 120) || (ord "x" =? 88)))
      with true.
    cbv iota.
    rewrite (upper_hex_not_underscore c Hc).
    rewrite (upper_hex_is_hex c Hc), Hp. reflexivity.
  - change (txt "0x" ++ hex_of_nonneg n)
      with ("0"%char :: "x"%char :: hex_of_nonneg n).
    repeat constructor.
    eapply Forall_impl; [| exact Hu].
    intros c Hc. apply upper_hex_not_space. exact Hc.
Qed.

Lemma parse_offset_chars_nonneg (lit : text) (n : Z) :
  Forall (fun c => is_offset_char c = true) lit ->
  parse_int16 lit = Some n -> (0 <= n)%Z.
Proof.
  intros Hcls H. unfold parse_int16 in H.
  rewrite strip_id in H.
  - assert (Hs : split_sign lit = (false, lit)).
    { destruct Hcls as [| c t Hc Ht]; [reflexivity |].
      destruct (offset_char_not_sign c Hc) as [H1 H2].
      simpl. rewrite H1, H2. reflexivity. }
    rewrite Hs in H.
    destruct (skip_prefix lit) as [| c t] eqn:Hb; [discriminate |].
    destruct (is_hex c); [| discriminate].
    destruct (digits16 0 false (c :: t)) as [m |] eqn:Hd; [| discriminate].
    inversion H; subst.
    eapply digits16_nonneg; [| exact Hd]. lia.
  - eapply Forall_impl; [| exact Hcls].
    intros c Hc. apply offset_char_not_space. exact Hc.
Qed.

(** ** Stable sorting by key *)

Section Sorting.

Context {A : Type}.
Implicit Types (x y : Z * A) (l : list (Z * A)).

Lemma insert_by_key_perm x l : Permutation (insert_by_key x l) (x :: l).
Proof.
  induction l as [| y t IH]; simpl; [reflexivity |].
  destruct (fst y <? fst x)%Z; [| reflexivity].
  rewrite IH. apply perm_swap.
Qed.

Lemma sort_by_key_perm l : Permutation (sort_by_key l) l.
Proof.
  induction l as [| x t IH]; simpl; [reflexivity |].
  rewrite insert_by_key_perm. constructor. exact IH.
Qed.

Lemma insert_by_key_hd (k : Z) x l :
  (k <= fst x)%Z ->
  HdRel Z.le k (map fst l) ->
  HdRel Z.le k (map fst (insert_by_key x l)).
Proof.
  intros Hx Hl. destruct l as [| y t]; simpl.
  - constructor. exact Hx.
  - inversion Hl; subst.
    destruct (fst y <? fst x)%Z; simpl; constructor; assumption.
Qed.

Lemma insert_by_key_sorted x l :
  Sorted Z.le (map fst l) -> Sorted Z.le (map fst (insert_by_key x l)).
Proof.
  induction l as [| y t IH]; simpl; intros Hs.
  - repeat constructor.
  - inversion Hs as [| ? ? Ht Hhd]; subst.
    destruct (fst y <? fst x)%Z eqn:E; simpl.
    + apply Z.ltb_lt in E.
      constructor; [apply IH; exact Ht |].
      apply insert_by_key_hd; [lia | exact Hhd].
    + apply Z.ltb_ge in E.
      constructor; [exact Hs |]. constructor. exact E.
Qed.

Lemma sort_by_key_sorted l : Sorted Z.le (map fst (sort_by_key l)).
Proof.
  induction l as [| x t IH]; simpl; [constructor |].
  apply insert_by_key_sorted. exact IH.
Qed.

(** The sort is stable: the elements of any one key keep their order. *)
Lemma insert_by_key_stable (k : Z) x l :
  filter (fun y => (fst y =? k)%Z) (insert_by_key x l)
  = filter (fun y => (fst y =? k)%Z) (x :: l).
Proof.
  induction l as [| z t IH]; [reflexivity |].
  cbn [insert_by_key].
  destruct (fst z <? fst x)%Z eqn:E; [| reflexivity].
  apply Z.ltb_lt in E.
  cbn [filter] in *. rewrite IH.
  destruct (fst z =? k)%Z eqn:Ez, (fst x =? k)%Z eqn:Ex; try reflexivity.
  apply Z.eqb_eq in Ez, Ex. lia.
Qed.

Lemma sort_by_key_stable (k : Z) l :
  filter (fun y => (fst y =? k)%Z) (sort_by_key l)
  = filter (fun y => (fst y =? k)%Z) l.
Proof.
  induction l as [| x t IH]; [reflexivity |].
  cbn [sort_by_key fold_right]. rewrite insert_by_key_stable.
  cbn [filter]. fold (sort_by_key t). rewrite IH. reflexivity.
Qed.

(** Elements of different keys are inserted in either order. *)
Lemma insert_by_key_comm x y l :
  fst x <> fst y ->
  insert_by_key x (insert_by_key y l) = insert_by_key y (insert_by_key x l).
Proof.
  intros Hxy. induction l as [| z t IH]; simpl.
  - destruct (fst y <? fst x)%Z eqn:E1, (fst x <? fst y)%Z eqn:E2;
      try reflexivity;
      rewrite ?Z.ltb_lt, ?Z.ltb_ge in *; lia.
  - destruct (fst z <? fst y)%Z eqn:E1, (fst z <? fst x)%Z eqn:E2; simpl;
      rewrite ?E1, ?E2.
    + rewrite IH. reflexivity.
    + destruct (fst x <? fst y)%Z eqn:E3; [reflexivity |].
      rewrite ?Z.ltb_lt, ?Z.ltb_ge in *; lia.
    + destruct (fst y <? fst x)%Z eqn:E3; [reflexivity |].
      rewrite ?Z.ltb_lt, ?Z.ltb_ge in *; lia.
    + destruct (fst y <? fst x)%Z eqn:E3, (fst x <? fst y)%Z eqn:E4;
        simpl; rewrite ?E1, ?E2; try reflexivity;
        rewrite ?Z.ltb_lt, ?Z.ltb_ge in *; lia.
Qed.

(** With pairwise different keys the sorted list does not depend on the
    order of the input. *)
Lemma sort_by_key_order_free l l' :
  Permutation l l' ->
  NoDup (map fst l) ->
  sort_by_key l = sort_by_key l'.
Proof.
  induction 1 as [| x l l' Hp IH | x y l | l l' l'' Hp1 IH1 Hp2 IH2];
    intros Hnd; simpl.
  - reflexivity.
  - inversion Hnd; subst. rewrite IH by assumption. reflexivity.
  - apply insert_by_key_comm.
    inversion Hnd as [| ? ? Hin _]; subst.
    intros E. apply Hin. left. symmetry. exact E.
  - rewrite IH1 by assumption. apply IH2.
    eapply Permutation_NoDup; [| exact Hnd].
    apply Permutation_map. exact Hp1.
Qed.

End Sorting.

Lemma sorted_le_nodup_lt (l : list Z) :
  Sorted Z.le l -> NoDup l -> Sorted Z.lt l.
Proof.
  intros Hs Hnd.
  apply StronglySorted_Sorted.
  apply Sorted_StronglySorted in Hs; [| intros a b c; apply Z.le_trans].
  induction Hs as [| a l Hs IH Hall]; [constructor |].
  inversion Hnd as [| ? ? Hin Hnd']; subst.
  constructor; [apply IH; exact Hnd' |].
  rewrite Forall_forall in *. intros b Hb.
  specialize (Hall b Hb).
  assert (a <> b) by (intros ->; contradiction).
  lia.
Qed.

(** ** Sequencing *)

Lemma mapM_perm {A B} (f : A -> result B) (l l' : list A) :
  Permutation l l' ->
  forall ys, mapM f l = ret ys ->
  exists ys', mapM f l' = ret ys' /\ Permutation ys ys'.
Proof.
  induction 1 as [| x l l' Hp IH | x y l | l l' l'' Hp1 IH1 Hp2 IH2];
    intros ys H; simpl in *.
  - exists ys. split; [exact H | reflexivity].
  - destruct (f x) as [e | b]; [discriminate |]. simpl in *.
    destruct (mapM f l) as [e | bs]; [discriminate |]. simpl in *.
    inversion H; subst.
    destruct (IH bs eq_refl) as (bs' & -> & Hbs).
    exists (b :: bs'). split; [reflexivity | constructor; exact Hbs].
  - destruct (f y) as [e | b]; [discriminate |]. simpl in *.
    destruct (f x) as [e | a]; [discriminate |]. simpl in *.
    destruct (mapM f l) as [e | bs]; [discriminate |]. simpl in *.
    inversion H; subst.
    exists (a :: b :: bs). split; [reflexivity | apply perm_swap].
  - destruct (IH1 ys H) as (ys' & H' & Hp').
    destruct (IH2 ys' H') as (ys'' & H'' & Hp'').
    exists ys''. split; [exact H'' | etransitivity; eassumption].
Qed.

Lemma mapM_offset_key (registers : list Register) (keyed : list (Z * Register)) :
  mapM offset_key registers = ret keyed ->
  map snd keyed = registers
  /\ numeric_offsets registers = ret (map fst keyed).
Proof.
  unfold numeric_offsets.
  revert keyed. induction registers as [| r t IH]; simpl; intros keyed H.
  - inversion H; subst. split; reflexivity.
  - unfold offset_key at 1 in H.
    destruct (int16 (offset r)) as [e | n]; [discriminate |]. simpl in *.
    destruct (mapM offset_key t) as [e | ks]; [discriminate |]. simpl in *.
    inversion H; subst.
    destruct (IH ks eq_refl) as [H1 H2].
    simpl. rewrite H1, H2. split; reflexivity.
Qed.

Lemma numeric_offsets_keyed (registers : list Register) (offs : list Z) :
  numeric_offsets registers = ret offs ->
  mapM offset_key registers = ret (combine offs registers)
  /\ length offs = length registers.
Proof.
  unfold numeric_offsets.
  revert offs. induction registers as [| r t IH]; simpl; intros offs H.
  - inversion H; subst. split; reflexivity.
  - unfold offset_key at 1.
    destruct (int16 (offset r)) as [e | n]; [discriminate |]. simpl in *.
    destruct (mapM _ t) as [e | ks]; [discriminate |]. simpl in *.
    inversion H; subst.
    destruct (IH ks eq_refl) as [H1 H2].
    rewrite H1. simpl. rewrite H2. split; reflexivity.
Qed.

Lemma numeric_offsets_of_keyed (keyed : list (Z * Register)) :
  Forall (fun kr => int16 (offset (snd kr)) = ret (fst kr)) keyed ->
  numeric_offsets (map snd keyed) = ret (map fst keyed).
Proof.
  unfold numeric_offsets.
  induction 1 as [| kr t Hkr Ht IH]; simpl; [reflexivity |].
  rewrite Hkr. simpl. rewrite IH. reflexivity.
Qed.

Lemma keyed_consistent (registers : list Register) (keyed : list (Z * Register)) :
  mapM offset_key registers = ret keyed ->
  Forall (fun kr => int16 (offset (snd kr)) = ret (fst kr)) keyed.
Proof.
  revert keyed. induction registers as [| r t IH]; simpl; intros keyed H.
  - inversion H; subst. constructor.
  - unfold offset_key at 1 in H.
    destruct (int16 (offset r)) as [e | n] eqn:E; [discriminate |]. simpl in *.
    destruct (mapM offset_key t) as [e | ks]; [discriminate |]. simpl in *.
    inversion H; subst.
    constructor; [exact E | apply IH; reflexivity].
Qed.

(** The loop pairs the matches in order. *)
Lemma parse_registers_pairs
    (pairs : list (RegisterMatch * RegisterMetaMatch)) :
  forall acc,
    parse_registers (map fst pairs) (map snd pairs) acc
    = (rs <- mapM (fun p => from_regex_match (fst p) (snd p)) pairs ;;
       ret (acc ++ rs)).
Proof.
  induction pairs as [| [h m] t IH]; intros acc; simpl.
  - rewrite app_nil_r. reflexivity.
  - destruct (from_regex_match h m) as [e | r]; simpl; [reflexivity |].
    rewrite IH.
    destruct (mapM _ t) as [e | rs]; simpl; [reflexivity |].
    rewrite <- app_assoc. reflexivity.
Qed.

(** ** The matcher *)

Lemma run_Star (r : regex) (st : mstate) :
  run (Star r) st = star_run r (length (fst st)) st.
Proof. reflexivity. Qed.

Lemma run_Seq (r1 r2 : regex) (st : mstate) :
  run (Seq r1 r2) st = flat_map (run r2) (run r1 st).
Proof. reflexivity. Qed.

Lemma star_run_self (r : regex) (fuel : nat) (st : mstate) :
  In st (star_run r fuel st).
Proof.
  destruct fuel; simpl; [left; reflexivity |].
  apply in_or_app. right. left. reflexivity.
Qed.

Lemma star_run_step (r : regex) (fuel : nat) (st st1 st2 : mstate) :
  In st1 (run r st) ->
  length (fst st1) < length (fst st) ->
  In st2 (star_run r fuel st1) ->
  In st2 (star_run r (S fuel) st).
Proof.
  intros H1 Hlt H2. cbn [star_run].
  apply in_or_app. left.
  apply in_flat_map. exists st1. split; [exact H1 |].
  apply Nat.ltb_lt in Hlt. cbv beta.
  match goal with
  | |- In _ (if ?b then _ else _) => replace b with true by (symmetry; exact Hlt)
  end.
  exact H2.
Qed.

Lemma consumed_app (w s : text) : consumed (w ++ s) s = w.
Proof.
  unfold consumed. rewrite length_app.
  replace (length w + length s - length s) with (length w + 0) by lia.
  rewrite firstn_app_2. simpl. apply app_nil_r.
Qed.

(** Every state the matcher reaches lies after a text of the pattern's
    language, and every group it added holds a text of the group's body. *)
Lemma run_sound (r : regex) :
  forall st st',
    In st' (run r st) ->
    (exists w, fst st = w ++ fst st' /\ lang r w)
    /\ (forall n v,
          In (n, v) (snd st') ->
          In (n, v) (snd st) \/ exists r', group_of r n r' /\ lang r' v).
Proof.
  induction r as [| p | r1 IH1 r2 IH2 | r1 IH1 r2 IH2 | r1 IH1 | k r1 IH1];
    intros st st' Hin.
  - destruct Hin as [<- | []].
    split; [exists []; split; [reflexivity | constructor] | auto].
  - simpl in Hin. destruct st as [s caps]. simpl in *.
    destruct s as [| c s]; [contradiction |].
    destruct (p c) eqn:Hp; [| contradiction].
    destruct Hin as [<- | []]. simpl.
    split; [exists [c]; split; [reflexivity | constructor; exact Hp] | auto].
  - simpl in Hin. apply in_flat_map in Hin. destruct Hin as (st1 & H1 & H2).
    destruct (IH1 _ _ H1) as [(w1 & E1 & L1) C1].
    destruct (IH2 _ _ H2) as [(w2 & E2 & L2) C2].
    split.
    + exists (w1 ++ w2). split; [| constructor; assumption].
      rewrite E1, E2. apply app_assoc.
    + intros n v Hv. destruct (C2 n v Hv) as [Hv1 | (r' & G & L)].
      * destruct (C1 n v Hv1) as [Hv0 | (r' & G & L)]; [left; exact Hv0 |].
        right. exists r'. split; [apply group_seq_l; exact G | exact L].
      * right. exists r'. split; [apply group_seq_r; exact G | exact L].
  - simpl in Hin. apply in_app_or in Hin. destruct Hin as [H1 | H2].
    + destruct (IH1 _ _ H1) as [(w & E & L) C]. split.
      * exists w. split; [exact E | apply lang_alt_l; exact L].
      * intros n v Hv. destruct (C n v Hv) as [Hv0 | (r' & G & L')]; [auto |].
        right. exists r'. split; [apply group_alt_l; exact G | exact L'].
    + destruct (IH2 _ _ H2) as [(w & E & L) C]. split.
      * exists w. split; [exact E | apply lang_alt_r; exact L].
      * intros n v Hv. destruct (C n v Hv) as [Hv0 | (r' & G & L')]; [auto |].
        right. exists r'. split; [apply group_alt_r; exact G | exact L'].
  - rewrite run_Star in Hin.
    remember (length (fst st)) as fuel eqn:Hf. clear Hf.
    revert st st' Hin.
    induction fuel as [| fuel IHf]; intros st st' Hin; cbn [star_run] in Hin.
    + destruct Hin as [<- | []].
      split; [exists []; split; [reflexivity | constructor] | auto].
    + apply in_app_or in Hin. destruct Hin as [Hin | [<- | []]].
      * apply in_flat_map in Hin. destruct Hin as (st1 & H1 & H2).
        destruct (length (fst st1) <? length (fst st)); [| contradiction].
        destruct (IH1 _ _ H1) as [(w1 & E1 & L1) C1].
        destruct (IHf _ _ H2) as [(w2 & E2 & L2) C2].
        split.
        -- exists (w1 ++ w2). split; [| constructor; assumption].
           rewrite E1, E2. apply app_assoc.
        -- intros n v Hv. destruct (C2 n v Hv) as [Hv1 | (r' & G & L)].
           ++ destruct (C1 n v Hv1) as [Hv0 | (r' & G & L)];
                [left; exact Hv0 |].
              right. exists r'. split; [apply group_star; exact G | exact L].
           ++ right. exists r'. split; [exact G | exact L].
      * split; [exists []; split; [reflexivity | constructor] | auto].
  - simpl in Hin. apply in_map_iff in Hin. destruct Hin as (st1 & <- & H1).
    destruct (IH1 _ _ H1) as [(w & E & L) C]. simpl. split.
    + exists w. split; [exact E | constructor; exact L].
    + intros n v [Hv | Hv].
      * inversion Hv; subst. right. exists r1. split; [constructor |].
        rewrite E, consumed_app. exact L.
      * destruct (C n v Hv) as [Hv0 | (r' & G & L')]; [auto |].
        right. exists r'. split; [apply group_inside; exact G | exact L'].
Qed.

Lemma lookup_In (n : nat) (caps : captures) (v : text) :
  lookup n caps = Some v -> In (n, v) caps.
Proof.
  induction caps as [| [k u] t IH]; simpl; [discriminate |].
  destruct (k =? n) eqn:E.
  - apply Nat.eqb_eq in E. intros H. inversion H; subst. left. reflexivity.
  - intros H. right. apply IH. exact H.
Qed.

(** A match lies inside the text searched, its span belongs to the
    language of the pattern and its groups to those of their bodies. *)
Lemma match_at_sound (r : regex) (s : text) (m : Match) :
  match_at r s = Some m ->
  (exists post, s = span m ++ post)
  /\ lang r (span m)
  /\ (forall n v, In (n, v) (groups m) ->
                  exists r', group_of r n r' /\ lang r' v).
Proof.
  unfold match_at. intros H.
  destruct (run r (s, [])) as [| [s' caps] rest] eqn:E; [discriminate |].
  inversion H; subst. clear H. simpl.
  assert (Hin : In (s', caps) (run r (s, []))) by (rewrite E; left; reflexivity).
  destruct (run_sound r _ _ Hin) as [(w & Ew & L) C]. simpl in *.
  subst s. rewrite consumed_app.
  split; [exists s'; reflexivity |]. split; [exact L |].
  intros n v Hv. destruct (C n v Hv) as [[] | Hg]. exact Hg.
Qed.

Lemma search_sound (r : regex) (s : text) (m : Match) :
  search r s = Some m ->
  (exists pre post, s = pre ++ span m ++ post)
  /\ lang r (span m)
  /\ (forall n v, In (n, v) (groups m) ->
                  exists r', group_of r n r' /\ lang r' v).
Proof.
  induction s as [| c s IH]; simpl; intros H.
  - destruct (match_at r []) as [m' |] eqn:E; [| discriminate].
    inversion H; subst.
    destruct (match_at_sound _ _ _ E) as ((post & Ep) & L & C).
    split; [exists [], post; exact Ep | split; assumption].
  - destruct (match_at r (c :: s)) as [m' |] eqn:E.
    + inversion H; subst.
      destruct (match_at_sound _ _ _ E) as ((post & Ep) & L & C).
      split; [exists [], post; exact Ep | split; assumption].
    + destruct (IH H) as ((pre & post & Ep) & L & C).
      split; [| split; assumption].
      exists (c :: pre), post. rewrite Ep. reflexivity.
Qed.

Lemma fullmatch_sound (r : regex) (s : text) :
  fullmatch r s = true -> lang r s.
Proof.
  unfold fullmatch. intros H.
  apply existsb_exists in H. destruct H as ([s' caps] & Hin & Hs).
  simpl in Hs. destruct s'; [| discriminate].
  destruct (run_sound r _ _ Hin) as [(w & E & L) _]. simpl in E.
  rewrite app_nil_r in E. subst. exact L.
Qed.

(** *** Repeated character classes *)

Lemma lang_star_chr (p : ascii -> bool) (v : text) :
  lang (Star (Chr p)) v -> Forall (fun c => p c = true) v.
Proof.
  intros H. remember (Star (Chr p)) as r eqn:Er.
  induction H as [| | | | | r0 | r0 w1 w2 H1 _ H2 IH2 |]; try discriminate.
  - constructor.
  - inversion Er; subst. inversion H1; subst.
    constructor; [assumption | apply IH2; reflexivity].
Qed.

Lemma lang_plus_chr (p : ascii -> bool) (v : text) :
  lang (Plus (Chr p)) v -> v <> [] /\ Forall (fun c => p c = true) v.
Proof.
  intros H. inversion H as [| | r1 r2 w1 w2 H1 H2 | | | | |]; subst.
  inversion H1; subst. apply lang_star_chr in H2.
  split; [discriminate | constructor; assumption].
Qed.

Lemma star_run_chr (p : ascii -> bool) (ds : text) :
  forall tail caps fuel,
    Forall (fun c => p c = true) ds ->
    length (ds ++ tail) <= fuel ->
    In (tail, caps) (star_run (Chr p) fuel (ds ++ tail, caps)).
Proof.
  induction ds as [| d ds IH]; intros tail caps fuel Hds Hlen.
  - apply star_run_self.
  - inversion Hds as [| ? ? Hd Hds']; subst.
    destruct fuel as [| fuel]; [simpl in Hlen; lia |].
    apply star_run_step with (st1 := (ds ++ tail, caps)).
    + simpl. rewrite Hd. left. reflexivity.
    + simpl. lia.
    + apply IH; [exact Hds' | simpl in Hlen; lia].
Qed.

Lemma run_plus_chr (p : ascii -> bool) (ds tail : text) (caps : captures) :
  ds <> [] ->
  Forall (fun c => p c = true) ds ->
  In (tail, caps) (run (Plus (Chr p)) (ds ++ tail, caps)).
Proof.
  intros Hne Hds. destruct ds as [| d ds]; [congruence |].
  inversion Hds as [| ? ? Hd Hds']; subst.
  unfold Plus. rewrite run_Seq. apply in_flat_map.
  exists (ds ++ tail, caps). split.
  - simpl. rewrite Hd. left. reflexivity.
  - rewrite run_Star. apply star_run_chr; [exact Hds' | simpl; lia].
Qed.

(** *** Lines of digits *)

Lemma lang_digit_line (w : text) :
  lang digit_line w ->
  exists ds, w = ds ++ [LF] /\ ds <> []
             /\ Forall (fun c => is_digit c = true) ds.
Proof.
  intros H. inversion H as [| | r1 r2 w1 w2 H1 H2 | | | | |]; subst.
  apply lang_plus_chr in H1. destruct H1 as [Hne Hds].
  inversion H2 as [| q c Hc | | | | | |]; subst.
  apply Ascii.eqb_eq in Hc. subst c.
  exists w1. split; [reflexivity | split; assumption].
Qed.

Lemma lang_digit_lines (w : text) : lang DIGIT_LINES w -> digit_lines w.
Proof.
  intros H. remember DIGIT_LINES as r eqn:Er.
  induction H as [| | | | | r0 | r0 w1 w2 H1 _ H2 IH2 |]; try discriminate.
  - constructor.
  - inversion Er; subst.
    destruct (lang_digit_line _ H1) as (ds & -> & Hne & Hds).
    rewrite <- app_assoc. simpl.
    constructor; [assumption | assumption | apply IH2; reflexivity].
Qed.

Lemma run_digit_line (ds rest : text) (caps : captures) :
  ds <> [] ->
  Forall (fun c => is_digit c = true) ds ->
  In (rest, caps) (run digit_line (ds ++ LF :: rest, caps)).
Proof.
  intros Hne Hds. unfold digit_line. rewrite run_Seq. apply in_flat_map.
  exists (LF :: rest, caps). split.
  - apply run_plus_chr; assumption.
  - simpl. left. reflexivity.
Qed.

Lemma star_run_digit_lines (s : text) :
  digit_lines s ->
  forall fuel caps,
    length s <= fuel ->
    In ([], caps) (star_run digit_line fuel (s, caps)).
Proof.
  induction 1 as [| ds rest Hne Hds Hrest IH]; intros fuel caps Hlen.
  - apply star_run_self.
  - rewrite length_app in Hlen. simpl in Hlen.
    destruct fuel as [| fuel]; [lia |].
    apply star_run_step with (st1 := (rest, caps)).
    + apply run_digit_line; assumption.
    + simpl. rewrite length_app. simpl. lia.
    + apply IH. lia.
Qed.

(** The check of the false-positive filter holds exactly on runs of
    digit lines. *)
Lemma fullmatch_digit_lines (s : text) :
  fullmatch DIGIT_LINES s = true <-> digit_lines s.
Proof.
  split.
  - intros H. apply lang_digit_lines. apply fullmatch_sound. exact H.
  - intros H. unfold fullmatch. apply existsb_exists.
    exists ([], []). split; [| reflexivity].
    change DIGIT_LINES with (Star digit_line). rewrite run_Star.
    apply star_run_digit_lines; [exact H | simpl; lia].
Qed.

(** *** Groups that always take part *)

Lemma lookup_cons_some (n k : nat) (v : text) (caps : captures) :
  lookup n caps <> None -> lookup n ((k, v) :: caps) <> None.
Proof. simpl. destruct (k =? n); [discriminate | auto]. Qed.

Lemma run_keeps_groups (r : regex) (n : nat) :
  forall st st',
    In st' (run r st) ->
    (always_sets r n = true \/ lookup n (snd st) <> None) ->
    lookup n (snd st') <> None.
Proof.
  induction r as [| p | r1 IH1 r2 IH2 | r1 IH1 r2 IH2 | r1 IH1 | k r1 IH1];
    intros st st' Hin Hpre.
  - destruct Hin as [<- | []]. destruct Hpre; [discriminate | assumption].
  - simpl in Hin. destruct st as [s caps]. simpl in *.
    destruct s as [| c s]; [contradiction |].
    destruct (p c); [| contradiction].
    destruct Hin as [<- | []]. simpl.
    destruct Hpre; [discriminate | assumption].
  - simpl in Hin. apply in_flat_map in Hin. destruct Hin as (st1 & H1 & H2).
    simpl in Hpre.
    destruct (always_sets r1 n) eqn:E1.
    + apply (IH2 _ _ H2). right. apply (IH1 _ _ H1). left. reflexivity.
    + destruct Hpre as [Hpre | Hpre].
      * apply (IH2 _ _ H2). left. exact Hpre.
      * apply (IH2 _ _ H2). right. apply (IH1 _ _ H1). right. exact Hpre.
  - simpl in Hin, Hpre. apply in_app_or in Hin.
    destruct Hin as [H1 | H2].
    + apply (IH1 _ _ H1). destruct Hpre as [Hpre | Hpre]; [| auto].
      apply andb_true_iff in Hpre. left. apply Hpre.
    + apply (IH2 _ _ H2). destruct Hpre as [Hpre | Hpre]; [| auto].
      apply andb_true_iff in Hpre. left. apply Hpre.
  - destruct Hpre as [Hpre | Hpre]; [discriminate |].
    rewrite run_Star in Hin.
    remember (length (fst st)) as fuel eqn:Hf. clear Hf.
    revert st st' Hin Hpre.
    induction fuel as [| fuel IHf]; intros st st' Hin Hpre;
      cbn [star_run] in Hin.
    + destruct Hin as [<- | []]. exact Hpre.
    + apply in_app_or in Hin. destruct Hin as [Hin | [<- | []]]; [| exact Hpre].
      apply in_flat_map in Hin. destruct Hin as (st1 & H1 & H2).
      destruct (length (fst st1) <? length (fst st)); [| contradiction].
      apply (IHf _ _ H2). apply (IH1 _ _ H1). right. exact Hpre.
  - simpl in Hin. apply in_map_iff in Hin. destruct Hin as (st1 & <- & H1).
    simpl in *. destruct (k =? n) eqn:E; [discriminate |].
    apply (IH1 _ _ H1). simpl in Hpre. exact Hpre.
Qed.

Lemma match_at_sets_groups (r : regex) (n : nat) (s : text) (m : Match) :
  always_sets r n = true ->
  match_at r s = Some m ->
  lookup n (groups m) <> None.
Proof.
  intros Hn. unfold match_at.
  destruct (run r (s, [])) as [| [s' caps] rest] eqn:E; [discriminate |].
  intros H. inversion H; subst. simpl.
  apply (run_keeps_groups r n (s, []) (s', caps)); [| auto].
  rewrite E. left. reflexivity.
Qed.

Lemma search_sets_groups (r : regex) (n : nat) (s : text) (m : Match) :
  always_sets r n = true ->
  search r s = Some m ->
  lookup n (groups m) <> None.
Proof.
  intros Hn. induction s as [| c s IH]; simpl.
  - destruct (match_at r []) as [m' |] eqn:E; [| discriminate].
    intros H. inversion H; subst.
    eapply match_at_sets_groups; eassumption.
  - destruct (match_at r (c :: s)) as [m' |] eqn:E; [| exact IH].
    intros H. inversion H; subst.
    eapply match_at_sets_groups; eassumption.
Qed.

(** A match of either pattern carries its first two groups. *)
Lemma search_register_total (element : text) :
  search_register element = None <-> search REGISTER_PATTERN element = None.
Proof.
  unfold search_register.
  destruct (search REGISTER_PATTERN element) as [m |] eqn:E;
    [| split; reflexivity].
  pose proof (search_sets_groups REGISTER_PATTERN 1 _ _ eq_refl E) as H1.
  pose proof (search_sets_groups REGISTER_PATTERN 2 _ _ eq_refl E) as H2.
  unfold as_register_match. simpl.
  destruct (lookup 1 (groups m)); [| congruence].
  destruct (lookup 2 (groups m)); [| congruence].
  split; discriminate.
Qed.

Lemma search_register_meta_total (element : text) :
  search_register_meta element = None
  <-> search REGISTER_META_PATTERN element = None.
Proof.
  unfold search_register_meta.
  destruct (search REGISTER_META_PATTERN element) as [m |] eqn:E;
    [| split; reflexivity].
  pose proof (search_sets_groups REGISTER_META_PATTERN 1 _ _ eq_refl E) as H1.
  pose proof (search_sets_groups REGISTER_META_PATTERN 2 _ _ eq_refl E) as H2.
  unfold as_register_meta_match. simpl.
  destruct (lookup 1 (groups m)); [| congruence].
  destruct (lookup 2 (groups m)); [| congruence].
  split; discriminate.
Qed.

(** *** What the groups of the patterns hold *)

Ltac invert_group_of :=
  repeat match goal with
         | H : group_of (Seq _ _) _ _ |- _ => inversion H; subst; clear H
         | H : group_of (Alt _ _) _ _ |- _ => inversion H; subst; clear H
         | H : group_of (Star _) _ _ |- _ => inversion H; subst; clear H
         | H : group_of (Group _ _) _ _ |- _ => inversion H; subst; clear H
         | H : group_of (Chr _) _ _ |- _ => inversion H
         | H : group_of Eps _ _ |- _ => inversion H
         end.

Lemma meta_pattern_group1 (r' : regex) :
  group_of REGISTER_META_PATTERN 1 r' -> r' = Plus (Chr is_offset_char).
Proof.
  intros H.
  cbv [REGISTER_META_PATTERN Lit txt list_ascii_of_string fold_right Plus] in H.
  invert_group_of; reflexivity.
Qed.

Lemma meta_pattern_group2 (r' : regex) :
  group_of REGISTER_META_PATTERN 2 r' -> r' = Plus (Chr is_perm_char).
Proof.
  intros H.
  cbv [REGISTER_META_PATTERN Lit txt list_ascii_of_string fold_right Plus] in H.
  invert_group_of; reflexivity.
Qed.

Lemma register_pattern_group2 (r' : regex) :
  group_of REGISTER_PATTERN 2 r' -> r' = Plus (Chr is_word).
Proof.
  intros H. cbv [REGISTER_PATTERN Plus Opt] in H.
  invert_group_of; reflexivity.
Qed.

(** The offset a metadata match captures is a non-empty text over
    [[0-9a-fA-Fx]], the permissions a non-empty text over [[\w\/]]. *)
Lemma search_register_meta_groups (element : text) (meta : RegisterMetaMatch) :
  search_register_meta element = Some meta ->
  (meta_group1 meta <> []
   /\ Forall (fun c => is_offset_char c = true) (meta_group1 meta))
  /\ (meta_group2 meta <> []
      /\ Forall (fun c => is_perm_char c = true) (meta_group2 meta)).
Proof.
  unfold search_register_meta. intros H.
  destruct (search REGISTER_META_PATTERN element) as [m |] eqn:E;
    [| discriminate].
  destruct (search_sound _ _ _ E) as (_ & _ & C).
  unfold as_register_meta_match in H. simpl in H.
  destruct (lookup 1 (groups m)) as [g1 |] eqn:E1; [| discriminate].
  destruct (lookup 2 (groups m)) as [g2 |] eqn:E2; [| discriminate].
  inversion H; subst. simpl.
  apply lookup_In in E1, E2.
  destruct (C _ _ E1) as (r1 & G1 & L1).
  destruct (C _ _ E2) as (r2 & G2 & L2).
  apply meta_pattern_group1 in G1. apply meta_pattern_group2 in G2. subst.
  split; apply lang_plus_chr; assumption.
Qed.

(** The name a heading match captures is a non-empty word. *)
Lemma search_register_name (element : text) (register : RegisterMatch) :
  search_register element = Some register ->
  reg_group2 register <> []
  /\ Forall (fun c => is_word c = true) (reg_group2 register).
Proof.
  unfold search_register. intros H.
  destruct (search REGISTER_PATTERN element) as [m |] eqn:E; [| discriminate].
  destruct (search_sound _ _ _ E) as (_ & _ & C).
  unfold as_register_match in H. simpl in H.
  destruct (lookup 1 (groups m)) as [g1 |] eqn:E1; [| discriminate].
  destruct (lookup 2 (groups m)) as [g2 |] eqn:E2; [| discriminate].
  inversion H; subst. simpl.
  apply lookup_In in E2.
  destruct (C _ _ E2) as (r2 & G2 & L2).
  apply register_pattern_group2 in G2. subst.
  apply lang_plus_chr. assumption.
Qed.

(** ** Permission classifier *)

Lemma upper_char_not_lower (c : ascii) : is_lower (upper_char c) = false.
Proof. all_chars c; reflexivity. Qed.

(** No upper-cased text starts with ["Read/Write"]. *)
Lemma upper_never_mixed_case (d : text) :
  startswith (upper d) (txt "Read/Write") = false.
Proof.
  destruct d as [| a [| b t]]; [reflexivity | |].
  - simpl. apply andb_false_r.
  - simpl. pose proof (upper_char_not_lower b) as Hb.
    destruct (Ascii.eqb "e" (upper_char b)) eqn:E.
    + apply Ascii.eqb_eq in E. rewrite <- E in Hb. discriminate.
    + rewrite andb_false_r. reflexivity.
Qed.

Lemma startswith_app (s p q : text) :
  startswith s (p ++ q) = true -> startswith s p = true.
Proof.
  revert s. induction p as [| x p IH]; intros s H; [reflexivity |].
  destruct s as [| y s]; [discriminate |]. simpl in *.
  apply andb_true_iff in H. destruct H as [H1 H2].
  rewrite H1. simpl. apply IH. exact H2.
Qed.

(** What the classifier decides: the upper-cased descriptor is compared
    with ["R/W"], ["RW"], ["RO"] and ["WO"], and nothing else is accepted. *)
Lemma from_str_decision (d : text) :
  from_str d =
  if startswith (upper d) (txt "R/W") || startswith (upper d) (txt "RW")
  then ret RW
  else if startswith (upper d) (txt "RO") then ret RO
  else if startswith (upper d) (txt "WO") then ret WO
  else raise (ValueError []).
Proof.
  unfold from_str, startswith_any. cbn [existsb].
  rewrite upper_never_mixed_case.
  destruct (startswith (upper d) (txt "R/W")); [reflexivity |].
  destruct (startswith (upper d) (txt "RW")) eqn:E; [reflexivity |].
  destruct (startswith (upper d) (txt "RWC")) eqn:E'; [| reflexivity].
  apply (startswith_app _ (txt "RW") (txt "C")) in E'. congruence.
Qed.

(** The classifier never falls back on a class: a descriptor is classified
    only when its upper-cased text starts with one of the four prefixes. *)
Lemma from_str_no_default (d : text) (c : MemoryPermissions) :
  from_str d = ret c ->
  match c with
  | RW => startswith (upper d) (txt "R/W") = true
          \/ startswith (upper d) (txt "RW") = true
  | RO => startswith (upper d) (txt "RO") = true
  | WO => startswith (upper d) (txt "WO") = true
  end.
Proof.
  rewrite from_str_decision.
  destruct (startswith (upper d) (txt "R/W")) eqn:E1.
  - intros H. inversion H; subst. left. reflexivity.
  - destruct (startswith (upper d) (txt "RW")) eqn:E2.
    + intros H. inversion H; subst. right. reflexivity.
    + cbn [orb].
      destruct (startswith (upper d) (txt "RO")) eqn:E3.
      * intros H. inversion H; subst. reflexivity.
      * destruct (startswith (upper d) (txt "WO")) eqn:E4.
        -- intros H. inversion H; subst. reflexivity.
        -- discriminate.
Qed.

Lemma read_write_descriptor (d : text) :
  spec_starts_with d (txt "Read/Write") = true ->
  exists t, upper d = "R"%char :: "E"%char :: t.
Proof.
  unfold spec_starts_with. intros H.
  destruct (upper d) as [| a [| b t]]; try discriminate.
  - simpl in H. rewrite andb_false_r in H. discriminate.
  - simpl in H.
    apply andb_true_iff in H. destruct H as [Ha H].
    apply andb_true_iff in H. destruct H as [Hb _].
    apply Ascii.eqb_eq in Ha, Hb. subst. exists t. reflexivity.
Qed.

Lemma from_str_rejects_read_write_aux (d : text) :
  spec_starts_with d (txt "Read/Write") = true ->
  from_str d = raise (ValueError []).
Proof.
  intros H. destruct (read_write_descriptor d H) as (t & E).
  rewrite from_str_decision, E. reflexivity.
Qed.

Lemma spec_classify_read_write (d : text) :
  spec_starts_with d (txt "Read/Write") = true -> spec_classify d = Some RW.
Proof.
  intros H. unfold spec_classify.
  replace (existsb (spec_starts_with d)
             [txt "R/W"; txt "RW"; txt "Read/Write"; txt "RWC"])
    with true; [reflexivity |].
  symmetry. apply existsb_exists. exists (txt "Read/Write").
  split; [simpl; auto | exact H].
Qed.

(** C3: the classifier is to return ReadWrite for every casing of the known
    prefixes ["R/W"], ["RW"], ["Read/Write"], ["RWC"], ReadOnly for ["RO"],
    WriteOnly for ["WO"], and to fail on every other descriptor.  The code
    breaks this on one prefix: a descriptor that starts with ["Read/Write"]
    in any casing, which the classification of the specification maps to
    ReadWrite, is upper-cased before it is compared with the mixed-case
    prefix and ends in [ValueError]. *)
Theorem from_str_rejects_read_write (d : text) :
  spec_starts_with d (txt "Read/Write") = true ->
  spec_classify d = Some RW /\ from_str d = raise (ValueError []).
Proof.
  intros H. split.
  - apply spec_classify_read_write. exact H.
  - apply from_str_rejects_read_write_aux. exact H.
Qed.

Lemma from_str_rejects_read_write_witness :
  spec_classify (txt "Read/Write") = Some RW
  /\ from_str (txt "Read/Write") = raise (ValueError []).
Proof. apply (from_str_rejects_read_write (txt "Read/Write")). reflexivity. Defined.

(** Apart from ["Read/Write"], the code classifies as the specification
    words it. *)
Lemma from_str_agrees (d : text) :
  spec_starts_with d (txt "Read/Write") = false ->
  from_str d = match spec_classify d with
               | Some c => ret c
               | None => raise (ValueError [])
               end.
Proof.
  intros H. rewrite from_str_decision. unfold spec_classify.
  cbn [existsb]. rewrite H.
  change (spec_starts_with d (txt "R/W")) with (startswith (upper d) (txt "R/W")).
  change (spec_starts_with d (txt "RW")) with (startswith (upper d) (txt "RW")).
  change (spec_starts_with d (txt "RO")) with (startswith (upper d) (txt "RO")).
  change (spec_starts_with d (txt "WO")) with (startswith (upper d) (txt "WO")).
  change (spec_starts_with d (txt "RWC")) with (startswith (upper d) (txt "RWC")).
  destruct (startswith (upper d) (txt "R/W")); [reflexivity |].
  destruct (startswith (upper d) (txt "RW")) eqn:E; [reflexivity |].
  destruct (startswith (upper d) (txt "RWC")) eqn:E'.
  - apply (startswith_app _ (txt "RW") (txt "C")) in E'. congruence.
  - cbn [orb].
    destruct (startswith (upper d) (txt "RO")); [reflexivity |].
    destruct (startswith (upper d) (txt "WO")); reflexivity.
Qed.

(** A descriptor that matches none of the known prefixes is refused. *)
Lemma from_str_unknown_fails (d : text) :
  spec_classify d = None -> from_str d = raise (ValueError []).
Proof.
  intros H.
  destruct (spec_starts_with d (txt "Read/Write")) eqn:E.
  - apply from_str_rejects_read_write_aux. exact E.
  - rewrite (from_str_agrees d E), H. reflexivity.
Qed.

Example from_str_casings :
  map from_str [txt "r/w"; txt "R/W"; txt "rw"; txt "RWC"; txt "rwc";
                txt "ro"; txt "RO"; txt "wo"; txt "Wo"; txt "W1C"; txt ""]
  = [ret RW; ret RW; ret RW; ret RW; ret RW; ret RO; ret RO; ret WO; ret WO;
     raise (ValueError []); raise (ValueError [])].
Proof. reflexivity. Qed.

(** ** Register construction *)

Lemma Register_new_succeeds (name lit d : text) :
  (exists r, Register_new name lit d = ret r)
  <-> (exists n, parse_int16 lit = Some n) /\ (exists c, from_str d = ret c).
Proof.
  unfold Register_new, int16. split.
  - intros (r & H).
    destruct (parse_int16 lit) as [n |]; [| discriminate]. simpl in H.
    destruct (from_str d) as [e | c]; [discriminate |].
    split; [exists n | exists c]; reflexivity.
  - intros ((n & Hn) & (c & Hc)). rewrite Hn, Hc. simpl. eauto.
Qed.

(** C10: Register construction is to succeed exactly when the captured
    offset parses as hexadecimal and the permissions match a known prefix.
    The offset part holds ([Register_new_succeeds], and an offset such as
    ["3x0"] or ["xx"] ends in [ValueError]); the code breaks the claim on
    the permissions: with an offset that parses and a descriptor that
    starts with the known prefix ["Read/Write"], construction ends in
    [ValueError]. *)
Theorem Register_new_rejects_read_write (name lit d : text) (n : Z) :
  parse_int16 lit = Some n ->
  spec_starts_with d (txt "Read/Write") = true ->
  spec_classify d = Some RW
  /\ Register_new name lit d = raise (ValueError []).
Proof.
  intros Hn Hd. split; [apply spec_classify_read_write; exact Hd |].
  unfold Register_new, int16.
  rewrite Hn, (from_str_rejects_read_write_aux d Hd). reflexivity.
Qed.

Lemma Register_new_rejects_read_write_witness :
  spec_classify (txt "Read/Write") = Some RW
  /\ Register_new (txt "CLK_OUT_ENB") (txt "0x30") (txt "Read/Write")
     = raise (ValueError []).
Proof.
  apply (Register_new_rejects_read_write _ (txt "0x30") (txt "Read/Write") 48);
    reflexivity.
Defined.

Example meta_pattern_accepts_x :
  search_register_meta (txt "Offset: 3x0 | Read/Write: RW")
  = Some (mkRegisterMetaMatch (txt "Offset: 3x0 | Read/Write: RW")
                              (txt "3x0") (txt "RW"))
  /\ search_register_meta (txt "Offset: xx | Read/Write: RW")
     = Some (mkRegisterMetaMatch (txt "Offset: xx | Read/Write: RW")
                                 (txt "xx") (txt "RW")).
Proof. split; reflexivity. Qed.

Example Register_new_bad_offsets :
  Register_new (txt "R") (txt "3x0") (txt "RW")
  = raise (ValueError [txt "invalid literal for int() with base 16: '3x0'"])
  /\ Register_new (txt "R") (txt "xx") (txt "RW")
     = raise (ValueError [txt "invalid literal for int() with base 16: 'xx'"]).
Proof. split; reflexivity. Qed.

(** The stored offset of a register built from a literal over
    [[0-9a-fA-Fx]]. *)
Lemma Register_new_offset (name lit d : text) (n : Z) (c : MemoryPermissions) :
  Forall (fun ch => is_offset_char ch = true) lit ->
  parse_int16 lit = Some n ->
  from_str d = ret c ->
  Register_new name lit d = ret (mkRegister name (txt "0x" ++ hex_of_nonneg n) c)
  /\ (0 <= n)%Z.
Proof.
  intros Hcls Hn Hc.
  pose proof (parse_offset_chars_nonneg lit n Hcls Hn) as Hpos.
  split; [| exact Hpos].
  unfold Register_new, int16. rewrite Hn, Hc. simpl.
  unfold format_X.
  destruct (n <? 0)%Z eqn:E; [apply Z.ltb_lt in E; lia | reflexivity].
Qed.

(** *** Numerals and their values *)

Lemma hex_digit_is_hex (c : ascii) : hex_digit c = is_hex c.
Proof. all_chars c; reflexivity. Qed.

Lemma hex_digit_code_value (c : ascii) :
  hex_digit c = true -> hex_digit_value c = Some (digit_place c).
Proof. all_chars c; vm_compute; congruence. Qed.

Lemma hex_digit_facts (c : ascii) :
  hex_digit c = true ->
  is_int_space c = false /\ is_underscore c = false
  /\ (ord c =? 43) = false /\ (ord c =? 45) = false
  /\ (ord c =? 120) = false /\ (ord c =? 88) = false.
Proof. all_chars c; vm_compute; intuition congruence. Qed.

Lemma digit_place_range (c : ascii) : (0 <= digit_place c < 16)%Z.
Proof. all_chars c; vm_compute; intuition congruence. Qed.

Lemma digit_place_upper (c : ascii) :
  digit_place (upper_char c) = digit_place c.
Proof. all_chars c; reflexivity. Qed.

Lemma hex_digit_upper (c : ascii) :
  hex_digit c = true -> is_upper_hex (upper_char c) = true.
Proof. all_chars c; vm_compute; congruence. Qed.

Lemma upper_hex_place (c : ascii) :
  is_upper_hex c = true ->
  hex_char (digit_place c) = c
  /\ (Ascii.eqb c "0" = false -> (1 <= digit_place c)%Z).
Proof.
  all_chars c; vm_compute; intros H; try discriminate H;
    (split; [reflexivity | intros E; congruence]).
Qed.

Lemma digits16_value (digits : text) :
  Forall (fun c => hex_digit c = true) digits ->
  forall acc,
    digits16 acc false digits
    = Some (fold_left (fun a c => (16 * a + digit_place c)%Z) digits acc).
Proof.
  induction 1 as [| c t Hc Ht IH]; intros acc; [reflexivity |].
  cbn [digits16 fold_left].
  destruct (hex_digit_facts c Hc) as (_ & Hu & _).
  rewrite Hu, (hex_digit_code_value c Hc). apply IH.
Qed.

(** [int] reads a numeral as the number its digits denote. *)
Lemma parse_int16_numeral (lit digits : text) :
  hex_numeral lit digits -> parse_int16 lit = Some (numeral_value digits).
Proof.
  intros (Hform & Hne & Hd).
  destruct digits as [| c t]; [congruence |].
  inversion Hd as [| ? ? Hc Ht]; subst.
  destruct (hex_digit_facts c Hc) as (Hsp & Hu & Hplus & Hminus & Hx & HX).
  assert (Hns : Forall (fun ch => is_int_space ch = false) (c :: t)).
  { eapply Forall_impl; [| exact Hd].
    intros ch Hch. apply (hex_digit_facts ch Hch). }
  assert (Hhex : is_hex c = true) by (rewrite <- hex_digit_is_hex; exact Hc).
  unfold parse_int16, numeral_value.
  destruct Hform as [-> | ->].
  - rewrite strip_id by exact Hns.
    cbn [split_sign]. rewrite Hplus, Hminus.
    assert (Hskip : skip_prefix (c :: t) = c :: t).
    { destruct t as [| x t']; [reflexivity |].
      inversion Ht as [| ? ? Hxc _]; subst.
      destruct (hex_digit_facts x Hxc) as (_ & _ & _ & _ & Hx' & HX').
      cbn [skip_prefix]. rewrite Hx', HX', andb_false_r. reflexivity. }
    rewrite Hskip, Hhex, (digits16_value _ Hd). reflexivity.
  - change (txt "0x" ++ c :: t) with ("0"%char :: "x"%char :: c :: t).
    rewrite strip_id
      by (constructor; [reflexivity |]; constructor; [reflexivity | exact Hns]).
    cbn [split_sign]. change (ord "0" =? 43) with false.
    change (ord "0" =? 45) with false. cbv iota.
    cbn [skip_prefix].
    change ((ord "0" =? 48) && ((ord "x" =? 120) || (ord "x" =? 88)))
      with true.
    cbv iota. rewrite Hu, Hhex, (digits16_value _ Hd). reflexivity.
Qed.

Lemma numeral_value_upper (digits : text) :
  numeral_value (upper digits) = numeral_value digits.
Proof.
  unfold numeral_value. generalize 0%Z.
  induction digits as [| c t IH]; intros acc; [reflexivity |].
  cbn [upper map fold_left]. rewrite digit_place_upper. apply IH.
Qed.

Lemma numeral_value_strip_zeros (t : text) :
  numeral_value (strip_zeros t) = numeral_value t.
Proof.
  induction t as [| c rest IH]; [reflexivity |].
  cbn [strip_zeros]. destruct rest as [| d rest']; [reflexivity |].
  destruct (Ascii.eqb c "0") eqn:E; [| reflexivity].
  apply Ascii.eqb_eq in E. subst c. rewrite IH. reflexivity.
Qed.

Lemma numeral_value_snoc (t : text) (c : ascii) :
  numeral_value (t ++ [c]) = (16 * numeral_value t + digit_place c)%Z.
Proof. unfold numeral_value. rewrite fold_left_app. reflexivity. Qed.

Lemma fold_digits_ge (t : text) :
  forall acc,
    (0 <= acc)%Z ->
    (acc <= fold_left (fun a c => (16 * a + digit_place c)%Z) t acc)%Z.
Proof.
  induction t as [| c t IH]; intros acc Hacc; cbn [fold_left]; [lia |].
  pose proof (digit_place_range c).
  etransitivity; [| apply IH]; lia.
Qed.

Lemma strip_zeros_canonical (t : text) :
  t <> [] ->
  Forall (fun c => is_upper_hex c = true) t ->
  canonical (strip_zeros t).
Proof.
  intros Hne Ht. induction t as [| c rest IH]; [congruence |].
  cbn [strip_zeros]. destruct rest as [| d rest'].
  - split; [discriminate |]. split; [exact Ht |].
    intros r E. inversion E. reflexivity.
  - destruct (Ascii.eqb c "0") eqn:E.
    + inversion Ht; subst. apply IH; [discriminate | assumption].
    + split; [discriminate |]. split; [exact Ht |].
      intros r E'. inversion E'; subst. discriminate E.
Qed.

(** The digits that [format_X] writes for the value of a canonical
    numeral are the numeral itself. *)
Lemma hex_digits_canonical (t : text) :
  canonical t ->
  forall fuel acc,
    fuel <> O ->
    (numeral_value t < 16 ^ Z.of_nat fuel)%Z ->
    hex_digits fuel (numeral_value t) acc = t ++ acc.
Proof.
  induction t as [| c t IH] using rev_ind;
    intros (Hne & Hall & Hz) fuel acc Hfuel Hf; [congruence |].
  apply Forall_app in Hall. destruct Hall as [Ht Hc].
  inversion Hc as [| ? ? Hcu _]; subst.
  destruct (upper_hex_place c Hcu) as [Hchar Hpos].
  pose proof (digit_place_range c) as Hr.
  rewrite numeral_value_snoc in *.
  destruct fuel as [| fuel]; [congruence |].
  destruct t as [| a t'].
  - change (numeral_value []) with 0%Z in *.
    replace (16 * 0 + digit_place c)%Z with (digit_place c) in * by lia.
    cbn [hex_digits].
    replace (digit_place c <? 16)%Z with true by (symmetry; apply Z.ltb_lt; lia).
    rewrite Z.mod_small by lia. rewrite Hchar. reflexivity.
  - assert (Ha : Ascii.eqb a "0" = false).
    { destruct (Ascii.eqb a "0") eqn:E; [| reflexivity].
      apply Ascii.eqb_eq in E. subst a.
      specialize (Hz (t' ++ [c]) eq_refl).
      destruct t'; discriminate Hz. }
    inversion Ht as [| ? ? Hau Ht']; subst.
    destruct (upper_hex_place a Hau) as [_ Hapos]. specialize (Hapos Ha).
    assert (Hv : (1 <= numeral_value (a :: t'))%Z).
    { unfold numeral_value. cbn [fold_left].
      pose proof (fold_digits_ge t' (16 * 0 + digit_place a)%Z). lia. }
    assert (Hcan : canonical (a :: t')).
    { split; [discriminate |]. split; [exact Ht |].
      intros r E. inversion E; subst. discriminate Ha. }
    rewrite Nat2Z.inj_succ, Z.pow_succ_r in Hf by lia.
    assert (Hfuel' : fuel <> O).
    { intros E. subst fuel. change (16 ^ Z.of_nat 0)%Z with 1%Z in Hf. lia. }
    cbn [hex_digits].
    replace (16 * numeral_value (a :: t') + digit_place c <? 16)%Z
      with false by (symmetry; apply Z.ltb_ge; lia).
    replace ((16 * numeral_value (a :: t') + digit_place c) mod 16)%Z
      with (digit_place c).
    2:{ rewrite Z.add_comm, Z.mul_comm, Z.mod_add by lia.
        symmetry. apply Z.mod_small. lia. }
    replace ((16 * numeral_value (a :: t') + digit_place c) / 16)%Z
      with (numeral_value (a :: t')).
    2:{ rewrite Z.add_comm, Z.mul_comm, Z.div_add by lia.
        rewrite Z.div_small by lia. reflexivity. }
    rewrite Hchar, (IH Hcan) by (try exact Hfuel'; lia).
    rewrite <- app_assoc. reflexivity.
Qed.

Lemma numeral_value_nonneg (t : text) : (0 <= numeral_value t)%Z.
Proof. apply (fold_digits_ge t 0%Z). lia. Qed.

Lemma hex_of_nonneg_canonical (t : text) :
  canonical t -> hex_of_nonneg (numeral_value t) = t.
Proof.
  intros H. unfold hex_of_nonneg.
  rewrite (hex_digits_canonical t H); [apply app_nil_r | discriminate |].
  pose proof (numeral_value_nonneg t) as Hn.
  rewrite Nat2Z.inj_succ, Z2Nat.id by apply Z.log2_nonneg.
  destruct (Z.eq_dec (numeral_value t) 0) as [-> | Hz]; [reflexivity |].
  apply Z.lt_le_trans with (2 ^ Z.succ (Z.log2 (numeral_value t)))%Z.
  - apply Z.log2_spec. lia.
  - apply Z.pow_le_mono_l. lia.
Qed.

(** What the constructor stores for a numeral, by its characters. *)
Lemma Register_new_numeral (nm lit digits d : text) (c : MemoryPermissions) :
  hex_numeral lit digits ->
  from_str d = ret c ->
  Register_new nm lit d
  = ret (mkRegister nm (txt "0x" ++ strip_zeros (upper digits)) c).
Proof.
  intros Hnum Hc.
  pose proof (parse_int16_numeral _ _ Hnum) as Hp.
  destruct Hnum as (_ & Hne & Hd).
  assert (Hcan : canonical (strip_zeros (upper digits))).
  { apply strip_zeros_canonical.
    - destruct digits; [congruence | discriminate].
    - unfold upper. apply Forall_map.
      eapply Forall_impl; [| exact Hd]. apply hex_digit_upper. }
  unfold Register_new, int16. rewrite Hp, Hc. cbn [bind ret].
  unfold format_X.
  pose proof (numeral_value_nonneg digits) as Hpos.
  replace (numeral_value digits <? 0)%Z with false
    by (symmetry; apply Z.ltb_ge; exact Hpos).
  rewrite <- (numeral_value_upper digits).
  rewrite <- (numeral_value_strip_zeros (upper digits)).
  rewrite (hex_of_nonneg_canonical _ Hcan). reflexivity.
Qed.

Lemma digits16_hex (s : text) :
  Forall (fun c => is_offset_char c = true) s ->
  forall acc prev n,
    digits16 acc prev s = Some n -> Forall (fun c => hex_digit c = true) s.
Proof.
  induction 1 as [| c t Hc Ht IH]; intros acc prev n H; [constructor |].
  cbn [digits16] in H.
  assert (Hu : is_underscore c = false)
    by (revert Hc; clear; all_chars c; vm_compute; congruence).
  rewrite Hu in H.
  destruct (hex_digit_value c) as [d |] eqn:Hd; [| discriminate].
  constructor; [| eapply IH; exact H].
  rewrite hex_digit_is_hex. unfold is_hex. rewrite Hd. reflexivity.
Qed.

(** Among the literals the metadata pattern can capture, the numerals are
    exactly the literals that [int] accepts. *)
Lemma captured_numerals (lit : text) :
  Forall (fun c => is_offset_char c = true) lit ->
  (exists n, parse_int16 lit = Some n) <-> (exists digits, hex_numeral lit digits).
Proof.
  intros Hcls. split.
  2:{ intros (digits & H). eexists. apply parse_int16_numeral. exact H. }
  intros (n & H). unfold parse_int16 in H.
  rewrite strip_id in H
    by (eapply Forall_impl; [| exact Hcls];
        intros c Hc; apply offset_char_not_space; exact Hc).
  assert (Hs : split_sign lit = (false, lit)).
  { destruct Hcls as [| c t Hc Ht]; [reflexivity |].
    destruct (offset_char_not_sign c Hc) as [H1 H2].
    simpl. rewrite H1, H2. reflexivity. }
  rewrite Hs in H.
  assert (Hbody : skip_prefix lit = lit
                  \/ exists t, lit = "0"%char :: "x"%char :: t
                               /\ skip_prefix lit = t).
  { destruct lit as [| z [| x t]]; [left; reflexivity | left; reflexivity |].
    cbn [skip_prefix].
    destruct ((ord z =? 48) && ((ord x =? 120) || (ord x =? 88))) eqn:E;
      [| left; reflexivity].
    right. inversion Hcls as [| ? ? Hz Hrest]; subst.
    inversion Hrest as [| ? ? Hx Ht]; subst.
    assert (z = "0"%char /\ x = "x"%char) as [-> ->].
    { revert E Hx. clear. all_chars z; try discriminate;
        all_chars x; vm_compute; intros; try discriminate; split; reflexivity. }
    exists t. split; [reflexivity |].
    destruct t as [| u t']; [reflexivity |].
    inversion Ht as [| ? ? Hu _]; subst.
    replace (is_underscore u) with false; [reflexivity |].
    revert Hu. clear. all_chars u; vm_compute; congruence. }
  destruct Hbody as [Hb | (t & -> & Hb)]; rewrite Hb in H.
  - destruct lit as [| c lit']; [discriminate |].
    destruct (is_hex c); [| discriminate].
    destruct (digits16 0 false (c :: lit')) as [m |] eqn:Hd; [| discriminate].
    exists (c :: lit'). split; [left; reflexivity |].
    split; [discriminate |]. eapply digits16_hex; eassumption.
  - destruct t as [| c t']; [discriminate |].
    destruct (is_hex c); [| discriminate].
    destruct (digits16 0 false (c :: t')) as [m |] eqn:Hd; [| discriminate].
    exists (c :: t'). split; [right; reflexivity |].
    split; [discriminate |].
    inversion Hcls as [| ? ? _ Hr]; subst. inversion Hr as [| ? ? _ Hr']; subst.
    eapply digits16_hex; eassumption.
Qed.

(** C8: for every offset literal captured from a metadata block that is a
    valid hexadecimal numeral, whatever the casing of its digits and with
    or without a [0x] prefix, the stored offset of the register is ["0x"]
    followed by the upper-case hexadecimal rendering of the same number:
    the digits of the literal in upper case without their leading zeros,
    which denote the number the literal denotes. *)
Theorem stored_offset_normalized
    (element : text) (register : RegisterMatch)
    (register_meta : RegisterMetaMatch) (digits : text)
    (c : MemoryPermissions) :
  search_register_meta element = Some register_meta ->
  hex_numeral (meta_group1 register_meta) digits ->
  from_str (meta_group2 register_meta) = ret c ->
  exists r,
    from_regex_match register register_meta = ret r
    /\ name r = reg_group2 register
    /\ offset r = txt "0x" ++ strip_zeros (upper digits)
    /\ canonical (strip_zeros (upper digits))
    /\ numeral_value (strip_zeros (upper digits)) = numeral_value digits
    /\ parse_int16 (offset r) = Some (numeral_value digits).
Proof.
  intros _ Hnum Hc.
  pose proof (Register_new_numeral (reg_group2 register) _ _ _ c Hnum Hc) as Hr.
  destruct Hnum as (_ & Hne & Hd).
  assert (Hcan : canonical (strip_zeros (upper digits))).
  { apply strip_zeros_canonical.
    - destruct digits; [congruence | discriminate].
    - unfold upper. apply Forall_map.
      eapply Forall_impl; [| exact Hd]. apply hex_digit_upper. }
  assert (Hv : numeral_value (strip_zeros (upper digits)) = numeral_value digits)
    by (rewrite numeral_value_strip_zeros; apply numeral_value_upper).
  eexists. split; [exact Hr |]. simpl.
  split; [reflexivity |]. split; [reflexivity |].
  split; [exact Hcan |]. split; [exact Hv |].
  rewrite <- Hv, <- (hex_of_nonneg_canonical _ Hcan) at 1.
  apply parse_rendered. apply numeral_value_nonneg.
Qed.

Lemma stored_offset_normalized_witness :
  exists r,
    from_regex_match heading_enb
      (mkRegisterMetaMatch (txt "Offset: 0x003c | Read/Write: rw")
                           (txt "0x003c") (txt "rw")) = ret r
    /\ name r = txt "CLK_OUT_ENB"
    /\ offset r = txt "0x" ++ strip_zeros (upper (txt "003c"))
    /\ canonical (strip_zeros (upper (txt "003c")))
    /\ numeral_value (strip_zeros (upper (txt "003c")))
       = numeral_value (txt "003c")
    /\ parse_int16 (offset r) = Some (numeral_value (txt "003c")).
Proof.
  apply (stored_offset_normalized
           (txt "Offset: 0x003c | Read/Write: rw") heading_enb
           (mkRegisterMetaMatch (txt "Offset: 0x003c | Read/Write: rw")
                                (txt "0x003c") (txt "rw")) (txt "003c") RW).
  - reflexivity.
  - split; [right; reflexivity |].
    split; [discriminate | repeat constructor].
  - reflexivity.
Defined.

Example stored_offset_texts :
  txt "0x" ++ strip_zeros (upper (txt "003c")) = txt "0x3C"
  /\ numeral_value (txt "003c") = 60%Z
  /\ txt "0x" ++ strip_zeros (upper (txt "000")) = txt "0x0".
Proof. repeat split. Qed.

Example stored_offsets :
  map (fun lit => Register_new (txt "R") (txt lit) (txt "RO"))
      ["0x3c"; "3C"; "0X3c"; "003c"; "0"]%string
  = map (fun o => ret (mkRegister (txt "R") (txt o) RO))
      ["0x3C"; "0x3C"; "0x3C"; "0x3C"; "0x0"]%string.
Proof. reflexivity. Qed.

(** ** Pattern extractor *)

(** C7: a text block whose heading match consists only of lines of digits
    yields no heading match, wherever the block stands in the layout. *)
Theorem digit_lines_filtered
    (element : text) (register : RegisterMatch)
    (registers : list RegisterMatch) (register_metas : list RegisterMetaMatch) :
  search_register element = Some register ->
  digit_lines (reg_group0 register) ->
  fst (extract_step (registers, register_metas) (LTTextBoxHorizontal element))
  = registers
  /\ fst (extract_registers [LTTextBoxHorizontal element]) = [].
Proof.
  intros Hs Hd. apply fullmatch_digit_lines in Hd.
  unfold extract_registers. cbn [fold_left]. unfold extract_step.
  rewrite Hs, Hd. cbn [negb].
  split; destruct (search_register_meta element); reflexivity.
Qed.

Lemma digit_lines_filtered_witness :
  fst (extract_step ([heading_enb], [meta_enb])
         (LTTextBoxHorizontal (txt "123" ++ LF :: txt "456" ++ [LF])))
  = [heading_enb]
  /\ fst (extract_registers
            [LTTextBoxHorizontal (txt "123" ++ LF :: txt "456" ++ [LF])]) = [].
Proof.
  apply (digit_lines_filtered
           (txt "123" ++ LF :: txt "456" ++ [LF])
           (mkRegisterMatch (txt "123" ++ LF :: txt "456" ++ [LF])
                            (txt "123") (txt "456") None)).
  - reflexivity.
  - apply (digit_lines_cons (txt "123") (txt "456" ++ [LF]));
      [discriminate | repeat constructor |].
    apply (digit_lines_cons (txt "456") []);
      [discriminate | repeat constructor | constructor].
Defined.

(** The block of the specification's example has no heading match at all:
    a chapter number takes three characters or more. *)
Example short_digit_lines_do_not_match :
  search_register (txt "12" ++ LF :: txt "34" ++ LF :: txt "56" ++ [LF]) = None
  /\ extract_registers
       [LTTextBoxHorizontal
          (txt "12" ++ LF :: txt "34" ++ LF :: txt "56" ++ [LF])] = ([], []).
Proof. split; reflexivity. Qed.

Example extract_scenario_pages :
  extract_registers page1 = ([heading_enb], [meta_enb])
  /\ extract_registers page2 = ([heading_dis], [meta_dis]).
Proof. split; reflexivity. Qed.

(** ** Record builder *)

(** C4 as amended: when the numbers of heading matches and of metadata
    matches differ, [generate_code] stops at its assertion, before any
    register is built: it raises an [AssertionError] that carries no
    message, hence no counts, and leaves the file system as it was. *)
Theorem generate_code_length_mismatch
    (fs : filesystem) (output : text)
    (register_matches : list RegisterMatch)
    (register_meta_matches : list RegisterMetaMatch) :
  length register_matches <> length register_meta_matches ->
  generate_code fs output register_matches register_meta_matches
  = (raise (AssertionError []), fs).
Proof.
  intros H. unfold generate_code.
  apply Nat.eqb_neq in H. rewrite H. reflexivity.
Qed.

Lemma generate_code_length_mismatch_witness :
  generate_code [] registers_rs
    [heading_a; heading_b; heading_c] [meta_10; meta_20]
  = (raise (AssertionError []), []).
Proof.
  apply (generate_code_length_mismatch [] registers_rs
           [heading_a; heading_b; heading_c] [meta_10; meta_20]).
  simpl. lia.
Defined.

(** Against C4 as stated: with three heading matches and two metadata
    matches the failure does not report the counts 3 and 2. *)
Lemma length_mismatch_reports_no_counts :
  ~ exists e,
      generate_code [] registers_rs
        [heading_a; heading_b; heading_c] [meta_10; meta_20]
      = (raise e, [])
      /\ reports_counts e 3 2.
Proof.
  intros (e & H & (arg & Hin & _)).
  change (generate_code [] registers_rs
            [heading_a; heading_b; heading_c] [meta_10; meta_20])
    with (@raise unit (AssertionError []), @nil (text * text)) in H.
  inversion H; subst. simpl in Hin. exact Hin.
Qed.

(** The loop alone would pair the first two matches and drop the third. *)
Example parse_registers_unequal :
  parse_registers [heading_a; heading_b; heading_c] [meta_10; meta_20] []
  = ret [mkRegister (txt "REG_A") (txt "0x10") RW;
         mkRegister (txt "REG_B") (txt "0x20") RW].
Proof. reflexivity. Qed.

(** ** Code emitter *)

Lemma text_eqb_refl (a : text) : text_eqb a a = true.
Proof.
  induction a as [| c a IH]; [reflexivity |].
  simpl. rewrite Ascii.eqb_refl. exact IH.
Qed.

Lemma read_write_file (fs : filesystem) (path content : text) :
  read_file (write_file fs path content) path = Some content.
Proof. simpl. rewrite text_eqb_refl. reflexivity. Qed.

(** What [generate_code] writes when it succeeds: the sorted entries and
    the terminator, joined by line feeds inside the template. *)
Lemma generate_code_document
    (fs fs' : filesystem) (output : text)
    (register_matches : list RegisterMatch)
    (register_meta_matches : list RegisterMetaMatch) :
  generate_code fs output register_matches register_meta_matches
  = (ret tt, fs') ->
  exists registers regs t,
    length register_matches = length register_meta_matches
    /\ parse_registers register_matches register_meta_matches [] = ret registers
    /\ sorted_registers registers = ret regs
    /\ terminator registers = ret t
    /\ fs' = write_file fs output
               (FMT_format (join [LF] (map emit_code regs ++ [t]))).
Proof.
  unfold generate_code, register_structs_members. intros H.
  destruct (length register_matches =? length register_meta_matches) eqn:El;
    [| discriminate].
  apply Nat.eqb_eq in El. cbn [negb] in H.
  destruct (parse_registers _ _ _) as [e | registers] eqn:Ep; [discriminate |].
  cbn [bind] in H.
  destruct (terminator registers) as [e | t] eqn:Et; [discriminate |].
  cbn [bind] in H.
  destruct (sorted_registers registers) as [e | regs] eqn:Es; [discriminate |].
  cbn [bind ret] in H. inversion H; subst.
  exists registers, regs, t. repeat split; assumption.
Qed.

(** C5: when no register was extracted, both lists of matches being
    empty, [generate_code] fails with an [IndexError] that nothing catches
    and writes no file. *)
Theorem generate_code_empty_fails (fs : filesystem) (output : text) :
  generate_code fs output [] []
  = (raise (IndexError [txt "list index out of range"]), fs).
Proof. reflexivity. Qed.

Example main_without_matches (fs : filesystem) :
  main fs [[LTOther]; []; [LTTextBoxHorizontal (txt "Figure 12")]] registers_rs
  = (raise (IndexError [txt "list index out of range"]), fs).
Proof. reflexivity. Qed.

(** The terminator follows the register that was extracted last. *)
Lemma final_offset_last (registers : list Register) (r : Register) :
  final_offset (registers ++ [r]) = (n <- int16 (offset r) ;; ret (n + 4)%Z).
Proof.
  unfold final_offset, last_register.
  rewrite rev_app_distr. reflexivity.
Qed.

(** C1: the terminator is to stand at the largest offset plus 4.  The code
    takes the register extracted last, before the registers are sorted:
    with the register at 0x30 extracted before the one at 0x10, the
    terminator is at 0x14 and not at 0x34. *)
Theorem terminator_of_last_extracted :
  exists registers offs,
    parse_registers [heading_enb; heading_dis] [meta_enb; meta_dis] []
    = ret registers
    /\ numeric_offsets registers = ret offs
    /\ (max_offset offs + 4 = 52)%Z
    /\ final_offset registers = ret 20%Z
    /\ terminator registers = ret (txt "(0x14 => @END),").
Proof. eexists. eexists. repeat split. Qed.

(** C2: for the two pages of the scenario the output is to hold the entry
    at 0x10, read-only, then the entry at 0x30, read-write, then the
    terminator at 0x34.  The code writes the two entries in this order and
    the terminator at 0x14, four past the offset of the second page. *)
Theorem two_page_scenario :
  main [] [page1; page2] registers_rs
  = (ret tt, [(registers_rs, scenario_document)]).
Proof. vm_compute. reflexivity. Qed.

(** With the pages in the other order the terminator is at 0x34. *)
Example two_page_scenario_reversed :
  exists members,
    register_structs_members
      [mkRegister (txt "CLK_OUT_DIS") (txt "0x10") RO;
       mkRegister (txt "CLK_OUT_ENB") (txt "0x30") RW] = ret members
    /\ members = [txt "(0x10 => pub CLK_OUT_DIS: ReadOnly<u32>),";
                  txt "(0x30 => pub CLK_OUT_ENB: ReadWrite<u32>),";
                  txt "(0x34 => @END),"].
Proof. eexists. split; reflexivity. Qed.

(** C6 as amended: in the emitted members, the entries before the
    terminator are the registers in an order in which the numeric offsets
    never decrease from one entry to the next; they increase strictly when
    no two registers share an offset. *)
Theorem members_offsets_nondecreasing
    (registers : list Register) (members : list text) :
  register_structs_members registers = ret members ->
  exists regs t offs,
    members = map emit_code regs ++ [t]
    /\ terminator registers = ret t
    /\ Permutation regs registers
    /\ numeric_offsets regs = ret offs
    /\ Sorted Z.le offs
    /\ (NoDup offs -> Sorted Z.lt offs).
Proof.
  unfold register_structs_members, sorted_registers. intros H.
  destruct (terminator registers) as [e | t]; [discriminate |]. simpl in H.
  destruct (mapM offset_key registers) as [e | keyed] eqn:Ek; [discriminate |].
  simpl in H. inversion H; subst. clear H.
  pose proof (keyed_consistent _ _ Ek) as Hk.
  destruct (mapM_offset_key _ _ Ek) as [Hsnd _].
  pose proof (sort_by_key_perm keyed) as Hp.
  exists (map snd (sort_by_key keyed)), t, (map fst (sort_by_key keyed)).
  split; [reflexivity |]. split; [reflexivity |].
  split; [rewrite <- Hsnd; apply Permutation_map; exact Hp |].
  split.
  - apply numeric_offsets_of_keyed.
    eapply Permutation_Forall; [symmetry; exact Hp | exact Hk].
  - split; [apply sort_by_key_sorted |].
    apply sorted_le_nodup_lt. apply sort_by_key_sorted.
Qed.

Lemma members_offsets_nondecreasing_witness :
  exists regs t offs,
    [txt "(0x10 => pub CLK_OUT_DIS: ReadOnly<u32>),";
     txt "(0x30 => pub CLK_OUT_ENB: ReadWrite<u32>),";
     txt "(0x34 => @END),"] = map emit_code regs ++ [t]
    /\ terminator [mkRegister (txt "CLK_OUT_DIS") (txt "0x10") RO;
                   mkRegister (txt "CLK_OUT_ENB") (txt "0x30") RW] = ret t
    /\ Permutation regs [mkRegister (txt "CLK_OUT_DIS") (txt "0x10") RO;
                         mkRegister (txt "CLK_OUT_ENB") (txt "0x30") RW]
    /\ numeric_offsets regs = ret offs
    /\ Sorted Z.le offs
    /\ (NoDup offs -> Sorted Z.lt offs).
Proof.
  apply (members_offsets_nondecreasing
           [mkRegister (txt "CLK_OUT_DIS") (txt "0x10") RO;
            mkRegister (txt "CLK_OUT_ENB") (txt "0x30") RW]).
  reflexivity.
Defined.

(** Against C6 as stated: two registers at the same offset are emitted
    one after the other, and the offsets of the two entries do not increase
    strictly. *)
Lemma equal_offsets_not_strict :
  exists registers regs offs,
    parse_registers [heading_a; heading_b] [meta_10; meta_10] [] = ret registers
    /\ sorted_registers registers = ret regs
    /\ register_structs_members registers
       = ret (map emit_code regs ++ [txt "(0x14 => @END),"])
    /\ numeric_offsets regs = ret offs
    /\ ~ Sorted Z.lt offs.
Proof.
  eexists. eexists. eexists.
  split; [reflexivity |]. split; [reflexivity |].
  split; [reflexivity |]. split; [reflexivity |].
  intros H. inversion H as [| ? ? _ Hhd]; subst.
  inversion Hhd; subst. lia.
Qed.

(** ** Order of extraction *)

Lemma parse_registers_perm
    (pairs pairs' : list (RegisterMatch * RegisterMetaMatch))
    (registers : list Register) :
  Permutation pairs pairs' ->
  parse_registers (map fst pairs) (map snd pairs) [] = ret registers ->
  exists registers',
    parse_registers (map fst pairs') (map snd pairs') [] = ret registers'
    /\ Permutation registers registers'.
Proof.
  intros Hp H. rewrite parse_registers_pairs in H.
  destruct (mapM _ pairs) as [e | rs] eqn:E; [discriminate |].
  simpl in H. inversion H; subst. clear H.
  destruct (mapM_perm _ _ _ Hp _ E) as (rs' & E' & Hrs).
  exists rs'. split; [| exact Hrs].
  rewrite parse_registers_pairs, E'. reflexivity.
Qed.

Lemma sorted_registers_order_free
    (registers registers' : list Register) (offs : list Z) :
  Permutation registers registers' ->
  numeric_offsets registers = ret offs ->
  NoDup offs ->
  exists regs,
    sorted_registers registers = ret regs
    /\ sorted_registers registers' = ret regs.
Proof.
  intros Hp Ho Hnd.
  destruct (numeric_offsets_keyed _ _ Ho) as [Hk _].
  destruct (mapM_offset_key _ _ Hk) as [_ Ho'].
  rewrite Ho in Ho'. inversion Ho' as [Hoffs].
  destruct (mapM_perm _ _ _ Hp _ Hk) as (keyed' & Hk' & Hkp).
  unfold sorted_registers. rewrite Hk, Hk'. simpl.
  eexists. split; [reflexivity |].
  rewrite (sort_by_key_order_free _ _ Hkp); [reflexivity |].
  rewrite <- Hoffs. exact Hnd.
Qed.

(** C9 as amended: when the numeric offsets of the registers are pairwise
    different, the sorted registers, hence the field entries that precede
    the terminator, are the same under every permutation of the order in
    which the pairs of heading and metadata matches were extracted. *)
Theorem field_entries_order_free
    (pairs pairs' : list (RegisterMatch * RegisterMetaMatch))
    (registers : list Register) (offs : list Z) :
  Permutation pairs pairs' ->
  parse_registers (map fst pairs) (map snd pairs) [] = ret registers ->
  numeric_offsets registers = ret offs ->
  NoDup offs ->
  exists registers' regs,
    parse_registers (map fst pairs') (map snd pairs') [] = ret registers'
    /\ sorted_registers registers = ret regs
    /\ sorted_registers registers' = ret regs.
Proof.
  intros Hp H Ho Hnd.
  destruct (parse_registers_perm _ _ _ Hp H) as (registers' & H' & Hr).
  destruct (sorted_registers_order_free _ _ _ Hr Ho Hnd) as (regs & Hs & Hs').
  exists registers', regs. repeat split; assumption.
Qed.

Lemma field_entries_order_free_witness :
  exists registers' regs,
    parse_registers
      (map fst [(heading_dis, meta_dis); (heading_enb, meta_enb)])
      (map snd [(heading_dis, meta_dis); (heading_enb, meta_enb)]) []
    = ret registers'
    /\ sorted_registers
         [mkRegister (txt "CLK_OUT_ENB") (txt "0x30") RW;
          mkRegister (txt "CLK_OUT_DIS") (txt "0x10") RO] = ret regs
    /\ sorted_registers registers' = ret regs.
Proof.
  apply (field_entries_order_free
           [(heading_enb, meta_enb); (heading_dis, meta_dis)]
           [(heading_dis, meta_dis); (heading_enb, meta_enb)]
           [mkRegister (txt "CLK_OUT_ENB") (txt "0x30") RW;
            mkRegister (txt "CLK_OUT_DIS") (txt "0x10") RO]
           [48; 16]%Z).
  - apply perm_swap.
  - reflexivity.
  - reflexivity.
  - repeat constructor; simpl; intuition discriminate.
Defined.

(** Against C9 as stated: two registers at the same offset are emitted in
    the order of their extraction, so the same pairs in another order give
    another document, although the pair extracted last, and with it the
    terminator, is the same. *)
Lemma equal_offsets_order_dependent :
  Permutation
    [(heading_a, meta_10); (heading_b, meta_10); (heading_c, meta_20)]
    [(heading_b, meta_10); (heading_a, meta_10); (heading_c, meta_20)]
  /\ generate_code [] registers_rs
       [heading_a; heading_b; heading_c] [meta_10; meta_10; meta_20]
     <> generate_code [] registers_rs
          [heading_b; heading_a; heading_c] [meta_10; meta_10; meta_20].
Proof.
  split; [apply perm_swap |].
  vm_compute. intros H. discriminate H.
Qed.

Example equal_offsets_members :
  (registers <- parse_registers [heading_a; heading_b; heading_c]
                                [meta_10; meta_10; meta_20] [] ;;
   register_structs_members registers)
  = ret [txt "(0x10 => pub REG_A: ReadWrite<u32>),";
         txt "(0x10 => pub REG_B: ReadWrite<u32>),";
         txt "(0x20 => pub REG_C: ReadWrite<u32>),";
         txt "(0x24 => @END),"]
  /\ (registers <- parse_registers [heading_b; heading_a; heading_c]
                                   [meta_10; meta_10; meta_20] [] ;;
      register_structs_members registers)
     = ret [txt "(0x10 => pub REG_B: ReadWrite<u32>),";
            txt "(0x10 => pub REG_A: ReadWrite<u32>),";
            txt "(0x20 => pub REG_C: ReadWrite<u32>),";
            txt "(0x24 => @END),"].
Proof. split; reflexivity. Qed.

(** * Further properties *)

(** ** The extractor over a layout *)

Lemma extract_step_acc
    (registers : list RegisterMatch) (register_metas : list RegisterMetaMatch)
    (e : element) :
  extract_step (registers, register_metas) e
  = (registers ++ fst (extract_step ([], []) e),
     register_metas ++ snd (extract_step ([], []) e)).
Proof.
  destruct e as [element |]; simpl.
  - destruct (search_register element) as [register |];
      [destruct (negb (fullmatch DIGIT_LINES (reg_group0 register))) |];
      destruct (search_register_meta element);
      simpl; rewrite ?app_nil_r; reflexivity.
  - rewrite !app_nil_r. reflexivity.
Qed.

Lemma extract_fold_acc (layout : list element) :
  forall registers register_metas,
    fold_left extract_step layout (registers, register_metas)
    = (registers ++ fst (extract_registers layout),
       register_metas ++ snd (extract_registers layout)).
Proof.
  unfold extract_registers.
  induction layout as [| e layout IH]; intros registers register_metas.
  - simpl. rewrite !app_nil_r. reflexivity.
  - cbn [fold_left].
    rewrite (extract_step_acc registers register_metas e).
    rewrite IH.
    destruct (extract_step ([], []) e) as [r1 m1] eqn:E1.
    rewrite (IH r1 m1). simpl. rewrite <- !app_assoc. reflexivity.
Qed.

Lemma extract_registers_app_aux (layout1 layout2 : list element) :
  extract_registers (layout1 ++ layout2)
  = (fst (extract_registers layout1) ++ fst (extract_registers layout2),
     snd (extract_registers layout1) ++ snd (extract_registers layout2)).
Proof.
  unfold extract_registers at 1. rewrite fold_left_app.
  fold (extract_registers layout1).
  destruct (extract_registers layout1) as [r1 m1].
  apply extract_fold_acc.
Qed.

(** X1: the matches of a layout are those of its parts, in order: the
    extractor keeps no state from one element to the next. *)
Theorem extract_registers_app (layout1 layout2 : list element) :
  extract_registers (layout1 ++ layout2)
  = (fst (extract_registers layout1) ++ fst (extract_registers layout2),
     snd (extract_registers layout1) ++ snd (extract_registers layout2)).
Proof.
  apply extract_registers_app_aux.
Qed.

Lemma collect_fold_acc (pages : list (list element)) :
  forall registers register_metas,
    fold_left
      (fun acc layout =>
         let '(rs, ms) := extract_registers layout in
         (fst acc ++ rs, snd acc ++ ms))
      pages (registers, register_metas)
    = (registers ++ fst (extract_registers (concat pages)),
       register_metas ++ snd (extract_registers (concat pages))).
Proof.
  induction pages as [| layout pages IH]; intros registers register_metas.
  - simpl. rewrite !app_nil_r. reflexivity.
  - cbn [fold_left concat]. rewrite extract_registers_app_aux.
    destruct (extract_registers layout) as [r1 m1]. simpl.
    rewrite IH. rewrite <- !app_assoc. reflexivity.
Qed.

(** X2: [main] handles the pages as one layout: the matches it hands to
    [generate_code] are those of the concatenated pages, so where a page
    ends has no bearing on the output. *)
Theorem main_concat (fs : filesystem) (pages : list (list element))
    (output : text) :
  collect_matches pages = extract_registers (concat pages)
  /\ main fs pages output
     = generate_code fs output
         (fst (extract_registers (concat pages)))
         (snd (extract_registers (concat pages))).
Proof.
  assert (H : collect_matches pages = extract_registers (concat pages)).
  { unfold collect_matches. rewrite collect_fold_acc.
    destruct (extract_registers (concat pages)); reflexivity. }
  split; [exact H |].
  unfold main. rewrite H.
  destruct (extract_registers (concat pages)); reflexivity.
Qed.

Lemma extract_registers_cons (e : element) (layout : list element) :
  extract_registers (e :: layout)
  = (fst (extract_step ([], []) e) ++ fst (extract_registers layout),
     snd (extract_step ([], []) e) ++ snd (extract_registers layout)).
Proof.
  unfold extract_registers at 1. cbn [fold_left].
  destruct (extract_step ([], []) e) as [r1 m1].
  apply extract_fold_acc.
Qed.

(** X3: layout elements that are not horizontal text boxes contribute
    nothing, and a text box contributes at most one heading match and at
    most one metadata match. *)
Theorem extract_registers_text_boxes (layout : list element) :
  extract_registers (filter is_text_box layout) = extract_registers layout
  /\ length (fst (extract_registers layout))
     <= length (filter is_text_box layout)
  /\ length (snd (extract_registers layout))
     <= length (filter is_text_box layout).
Proof.
  induction layout as [| e layout (IH1 & IH2 & IH3)].
  - repeat split; simpl; lia.
  - destruct e as [element |]; cbn [filter is_text_box].
    + rewrite !(extract_registers_cons (LTTextBoxHorizontal element)), IH1.
      split; [reflexivity |].
      cbn [fst snd]. rewrite !length_app. simpl.
      split.
      * destruct (search_register element) as [register |];
          [destruct (negb (fullmatch DIGIT_LINES (reg_group0 register))) |];
          simpl; lia.
      * destruct (search_register_meta element); simpl; lia.
    + rewrite (extract_registers_cons LTOther). simpl.
      rewrite IH1. split; [| split; assumption].
      destruct (extract_registers layout); reflexivity.
Qed.

(** X4: every heading match the extractor returns is the match found in a
    text box of the layout and is not a run of digit lines; every metadata
    match it returns is the match found in a text box of the layout. *)
Theorem extract_registers_provenance (layout : list element) :
  Forall
    (fun register =>
       ~ digit_lines (reg_group0 register)
       /\ exists element,
            In (LTTextBoxHorizontal element) layout
            /\ search_register element = Some register)
    (fst (extract_registers layout))
  /\ Forall
       (fun meta =>
          exists element,
            In (LTTextBoxHorizontal element) layout
            /\ search_register_meta element = Some meta)
       (snd (extract_registers layout)).
Proof.
  induction layout as [| e layout [IH1 IH2]].
  - split; constructor.
  - rewrite extract_registers_cons. cbn [fst snd].
    assert (W1 : forall register,
               (~ digit_lines (reg_group0 register)
                /\ exists element,
                     In (LTTextBoxHorizontal element) layout
                     /\ search_register element = Some register) ->
               ~ digit_lines (reg_group0 register)
               /\ exists element,
                    In (LTTextBoxHorizontal element) (e :: layout)
                    /\ search_register element = Some register).
    { intros register [Hd (element & Hin & Hs)].
      split; [exact Hd |]. exists element. split; [right; exact Hin | exact Hs]. }
    assert (W2 : forall meta,
               (exists element,
                  In (LTTextBoxHorizontal element) layout
                  /\ search_register_meta element = Some meta) ->
               exists element,
                 In (LTTextBoxHorizontal element) (e :: layout)
                 /\ search_register_meta element = Some meta).
    { intros meta (element & Hin & Hs).
      exists element. split; [right; exact Hin | exact Hs]. }
    split; apply Forall_app; split;
      try (eapply Forall_impl; [| eassumption]; assumption).
    + destruct e as [element |]; [| constructor]. simpl.
      destruct (search_register element) as [register |] eqn:Es;
        [| constructor].
      destruct (fullmatch DIGIT_LINES (reg_group0 register)) eqn:Ef;
        [constructor |].
      simpl. constructor; [| constructor]. split.
      * intros Hd. apply fullmatch_digit_lines in Hd. congruence.
      * exists element. split; [left; reflexivity | exact Es].
    + destruct e as [element |]; [| constructor]. simpl.
      destruct (search_register element) as [register |];
        [destruct (negb (fullmatch DIGIT_LINES (reg_group0 register))) |];
        simpl;
        (destruct (search_register_meta element) as [meta |] eqn:Em;
         [| constructor];
         constructor; [| constructor];
         exists element; split; [left; reflexivity | exact Em]).
Qed.

(** X5: a heading match that is not a run of digit lines is kept: it is
    appended to the heading matches found so far. *)
Theorem heading_kept
    (element : text) (register : RegisterMatch)
    (registers : list RegisterMatch) (register_metas : list RegisterMetaMatch) :
  search_register element = Some register ->
  ~ digit_lines (reg_group0 register) ->
  fst (extract_step (registers, register_metas) (LTTextBoxHorizontal element))
  = registers ++ [register].
Proof.
  intros Hs Hd. unfold extract_step. rewrite Hs.
  destruct (fullmatch DIGIT_LINES (reg_group0 register)) eqn:Ef.
  - exfalso. apply Hd. apply fullmatch_digit_lines. exact Ef.
  - simpl. destruct (search_register_meta element); reflexivity.
Qed.

Lemma heading_kept_witness :
  fst (extract_step ([heading_a], [meta_10]) (LTTextBoxHorizontal block_enb))
  = [heading_a] ++ [heading_enb].
Proof.
  apply (heading_kept block_enb heading_enb [heading_a] [meta_10]).
  - reflexivity.
  - intros H. apply fullmatch_digit_lines in H. discriminate H.
Defined.

(** ** What the patterns match *)

Lemma lang_Lit (s w : text) : lang (Lit s) w -> w = s.
Proof.
  revert w. induction s as [| c s IH]; intros w H; simpl in H.
  - inversion H. reflexivity.
  - inversion H as [| | r1 r2 w1 w2 H1 H2 | | | | |]; subst.
    inversion H1 as [| q d Hd | | | | | |]; subst.
    apply Ascii.eqb_eq in Hd. subst d.
    rewrite (IH _ H2). reflexivity.
Qed.

Lemma lang_seq_inv (r1 r2 : regex) (w : text) :
  lang (Seq r1 r2) w -> exists w1 w2, w = w1 ++ w2 /\ lang r1 w1 /\ lang r2 w2.
Proof.
  intros H. inversion H; subst. eauto.
Qed.

Lemma lang_register_pattern_end (w : text) :
  lang REGISTER_PATTERN w -> exists body, w = body ++ [LF].
Proof.
  intros H. unfold REGISTER_PATTERN in H.
  apply lang_seq_inv in H. destruct H as (w1 & r1 & -> & _ & H).
  apply lang_seq_inv in H. destruct H as (w2 & r2 & -> & _ & H).
  apply lang_seq_inv in H. destruct H as (w3 & r3 & -> & _ & H).
  apply lang_seq_inv in H. destruct H as (w4 & r4 & -> & _ & H).
  inversion H as [| q c Hc | | | | | |]; subst.
  apply Ascii.eqb_eq in Hc. subst c.
  exists (w1 ++ w2 ++ w3 ++ w4). rewrite <- !app_assoc. reflexivity.
Qed.

Lemma register_pattern_group1 (r' : regex) :
  group_of REGISTER_PATTERN 1 r' ->
  r' = Seq (Chr is_digit) (Seq (Plus (Chr is_digit_or_dot)) (Chr is_digit)).
Proof.
  intros H. cbv [REGISTER_PATTERN Plus Opt] in H.
  invert_group_of; reflexivity.
Qed.

Lemma lang_chapter (w : text) :
  lang (Seq (Chr is_digit) (Seq (Plus (Chr is_digit_or_dot)) (Chr is_digit))) w ->
  exists d1 mid d2,
    w = d1 :: mid ++ [d2]
    /\ is_digit d1 = true /\ is_digit d2 = true
    /\ mid <> [] /\ Forall (fun c => is_digit_or_dot c = true) mid.
Proof.
  intros H.
  apply lang_seq_inv in H. destruct H as (w1 & r1 & -> & H1 & H).
  apply lang_seq_inv in H. destruct H as (w2 & r2 & -> & H2 & H3).
  inversion H1 as [| q1 d1 Hd1 | | | | | |]; subst.
  inversion H3 as [| q2 d2 Hd2 | | | | | |]; subst.
  apply lang_plus_chr in H2. destruct H2 as [Hne Hmid].
  exists d1, w2, d2. repeat split; assumption.
Qed.

(** X6: a heading match lies inside the text of the box and ends with a
    line feed; its chapter number has three characters or more, the first
    and the last of them digits and the others digits or dots; its register
    name is a non-empty run of word characters. *)
Theorem heading_match_shape (element : text) (register : RegisterMatch) :
  search_register element = Some register ->
  (exists before after, element = before ++ reg_group0 register ++ after)
  /\ (exists body, reg_group0 register = body ++ [LF])
  /\ (exists d1 mid d2,
        reg_group1 register = d1 :: mid ++ [d2]
        /\ is_digit d1 = true /\ is_digit d2 = true
        /\ mid <> [] /\ Forall (fun c => is_digit_or_dot c = true) mid)
  /\ reg_group2 register <> []
  /\ Forall (fun c => is_word c = true) (reg_group2 register).
Proof.
  intros H. pose proof (search_register_name _ _ H) as [Hne Hw].
  unfold search_register in H.
  destruct (search REGISTER_PATTERN element) as [m |] eqn:E; [| discriminate].
  destruct (search_sound _ _ _ E) as (Hsub & L & C).
  unfold as_register_match in H. simpl in H.
  destruct (lookup 1 (groups m)) as [g1 |] eqn:E1; [| discriminate].
  destruct (lookup 2 (groups m)) as [g2 |] eqn:E2; [| discriminate].
  inversion H; subst. simpl in *.
  split; [exact Hsub |].
  split; [apply lang_register_pattern_end; exact L |].
  split; [| split; assumption].
  apply lookup_In in E1. destruct (C _ _ E1) as (r1 & G1 & L1).
  apply register_pattern_group1 in G1. subst.
  apply lang_chapter. exact L1.
Qed.

Lemma heading_match_shape_witness :
  (exists before after, block_enb = before ++ reg_group0 heading_enb ++ after)
  /\ (exists body, reg_group0 heading_enb = body ++ [LF])
  /\ (exists d1 mid d2,
        reg_group1 heading_enb = d1 :: mid ++ [d2]
        /\ is_digit d1 = true /\ is_digit d2 = true
        /\ mid <> [] /\ Forall (fun c => is_digit_or_dot c = true) mid)
  /\ reg_group2 heading_enb <> []
  /\ Forall (fun c => is_word c = true) (reg_group2 heading_enb).
Proof. apply (heading_match_shape block_enb heading_enb). reflexivity. Defined.

Lemma search_register_needs_line_feed (element : text) (register : RegisterMatch) :
  search_register element = Some register -> In LF element.
Proof.
  intros H. pose proof (search_register_name _ _ H) as _.
  unfold search_register in H.
  destruct (search REGISTER_PATTERN element) as [m |] eqn:E; [| discriminate].
  destruct (search_sound _ _ _ E) as ((before & after & Hsub) & L & _).
  apply lang_register_pattern_end in L. destruct L as (body & Hb).
  rewrite Hsub, Hb. apply in_or_app. right. apply in_or_app. left.
  apply in_or_app. right. left. reflexivity.
Qed.

(** X7: a text box whose text holds no line feed yields no heading match,
    whatever else it holds: the register name must be followed by a line
    break inside the same box. *)
Theorem no_line_feed_no_heading (element : text)
    (registers : list RegisterMatch) (register_metas : list RegisterMetaMatch) :
  ~ In LF element ->
  search_register element = None
  /\ fst (extract_step (registers, register_metas)
            (LTTextBoxHorizontal element)) = registers.
Proof.
  intros Hn.
  assert (Hs : search_register element = None).
  { destruct (search_register element) as [register |] eqn:E; [| reflexivity].
    exfalso. apply Hn. eapply search_register_needs_line_feed. exact E. }
  split; [exact Hs |].
  unfold extract_step. rewrite Hs.
  destruct (search_register_meta element); reflexivity.
Qed.

Lemma no_line_feed_no_heading_witness :
  search_register (txt "2.1 CLK_OUT_ENB Offset: 0x30 | Read/Write: R/W") = None
  /\ fst (extract_step ([], [])
            (LTTextBoxHorizontal
               (txt "2.1 CLK_OUT_ENB Offset: 0x30 | Read/Write: R/W"))) = [].
Proof.
  apply (no_line_feed_no_heading
           (txt "2.1 CLK_OUT_ENB Offset: 0x30 | Read/Write: R/W") [] []).
  intros H. vm_compute in H. intuition discriminate.
Defined.

Lemma lang_meta_pattern_start (w : text) :
  lang REGISTER_META_PATTERN w -> exists rest, w = txt "Offset:" ++ rest.
Proof.
  intros H. unfold REGISTER_META_PATTERN in H.
  apply lang_seq_inv in H. destruct H as (w1 & r1 & -> & H1 & _).
  apply lang_Lit in H1. subst. exists r1. reflexivity.
Qed.

(** X8: a metadata match lies inside the text of the box and starts with
    ["Offset:"]; the offset it captures is a non-empty text over
    [[0-9a-fA-Fx]] and the permissions a non-empty text over word
    characters and slashes. *)
Theorem metadata_match_shape (element : text) (meta : RegisterMetaMatch) :
  search_register_meta element = Some meta ->
  (exists before after, element = before ++ meta_group0 meta ++ after)
  /\ (exists rest, meta_group0 meta = txt "Offset:" ++ rest)
  /\ meta_group1 meta <> []
  /\ Forall (fun c => is_offset_char c = true) (meta_group1 meta)
  /\ meta_group2 meta <> []
  /\ Forall (fun c => is_perm_char c = true) (meta_group2 meta).
Proof.
  intros H.
  destruct (search_register_meta_groups _ _ H) as [[H1 H2] [H3 H4]].
  unfold search_register_meta in H.
  destruct (search REGISTER_META_PATTERN element) as [m |] eqn:E;
    [| discriminate].
  destruct (search_sound _ _ _ E) as (Hsub & L & _).
  unfold as_register_meta_match in H. simpl in H.
  destruct (lookup 1 (groups m)) as [g1 |]; [| discriminate].
  destruct (lookup 2 (groups m)) as [g2 |]; [| discriminate].
  inversion H; subst. simpl in *.
  split; [exact Hsub |].
  split; [apply lang_meta_pattern_start; exact L |].
  repeat split; assumption.
Qed.

Lemma metadata_match_shape_witness :
  (exists before after, block_enb = before ++ meta_group0 meta_enb ++ after)
  /\ (exists rest, meta_group0 meta_enb = txt "Offset:" ++ rest)
  /\ meta_group1 meta_enb <> []
  /\ Forall (fun c => is_offset_char c = true) (meta_group1 meta_enb)
  /\ meta_group2 meta_enb <> []
  /\ Forall (fun c => is_perm_char c = true) (meta_group2 meta_enb).
Proof. apply (metadata_match_shape block_enb meta_enb). reflexivity. Defined.

(** X9: in a match of either pattern the groups that [from_regex_match]
    reads took part in the match: groups 1 and 2 of a heading match and of
    a metadata match are never [None]. *)
Theorem groups_read_are_present (element : text) (m : Match) :
  search REGISTER_PATTERN element = Some m
  \/ search REGISTER_META_PATTERN element = Some m ->
  exists g1 g2, group m 1 = Some g1 /\ group m 2 = Some g2.
Proof.
  intros [E | E].
  - pose proof (search_sets_groups REGISTER_PATTERN 1 _ _ eq_refl E) as H1.
    pose proof (search_sets_groups REGISTER_PATTERN 2 _ _ eq_refl E) as H2.
    simpl.
    destruct (lookup 1 (groups m)) as [g1 |]; [| congruence].
    destruct (lookup 2 (groups m)) as [g2 |]; [eauto | congruence].
  - pose proof (search_sets_groups REGISTER_META_PATTERN 1 _ _ eq_refl E) as H1.
    pose proof (search_sets_groups REGISTER_META_PATTERN 2 _ _ eq_refl E) as H2.
    simpl.
    destruct (lookup 1 (groups m)) as [g1 |]; [| congruence].
    destruct (lookup 2 (groups m)) as [g2 |]; [eauto | congruence].
Qed.

Lemma groups_read_are_present_witness :
  exists g1 g2,
    group (mkMatch (txt "Offset: 0x10 | Read/Write: RO")
                   [(2, txt "RO"); (1, txt "0x10")]) 1 = Some g1
    /\ group (mkMatch (txt "Offset: 0x10 | Read/Write: RO")
                      [(2, txt "RO"); (1, txt "0x10")]) 2 = Some g2.
Proof.
  apply (groups_read_are_present block_dis).
  right. reflexivity.
Defined.

(** ** The record builder *)

Lemma Register_new_fields (nm lit d : text) (r : Register) :
  Register_new nm lit d = ret r ->
  name r = nm
  /\ (exists n, parse_int16 lit = Some n /\ offset r = txt "0x" ++ format_X n)
  /\ from_str d = ret (perms r).
Proof.
  unfold Register_new, int16. intros H.
  destruct (parse_int16 lit) as [n |]; [| discriminate]. simpl in H.
  destruct (from_str d) as [e | c]; [discriminate |].
  simpl in H. inversion H; subst. simpl.
  split; [reflexivity |]. split; [| reflexivity].
  exists n. split; reflexivity.
Qed.


Lemma parse_registers_acc (hs : list RegisterMatch) :
  forall (ms : list RegisterMetaMatch) (acc registers : list Register),
    parse_registers hs ms acc = ret registers ->
    exists rs,
      registers = acc ++ rs
      /\ Forall2 (fun p r => from_regex_match (fst p) (snd p) = ret r)
                 (combine hs ms) rs.
Proof.
  induction hs as [| h hs IH]; intros ms acc registers H.
  - simpl in H. inversion H; subst.
    exists []. split; [symmetry; apply app_nil_r | constructor].
  - destruct ms as [| m ms].
    + simpl in H. inversion H; subst.
      exists []. split; [symmetry; apply app_nil_r | constructor].
    + cbn [parse_registers] in H.
      destruct (from_regex_match h m) as [e | r] eqn:E; [discriminate |].
      cbn [bind] in H.
      destruct (IH _ _ _ H) as (rs & -> & Hrs).
      exists (r :: rs). split; [rewrite <- app_assoc; reflexivity |].
      simpl. constructor; [exact E | exact Hrs].
Qed.


(** X10: the loop of [generate_code] pairs by position: the i-th register
    is built from the i-th heading match and the i-th metadata match and
    bears the name the heading captured, unchanged; there are as many
    registers as the shorter of the two lists has matches. *)
Theorem registers_paired_by_position
    (hs : list RegisterMatch) (ms : list RegisterMetaMatch)
    (registers : list Register) :
  parse_registers hs ms [] = ret registers ->
  Forall2
    (fun p r =>
       from_regex_match (fst p) (snd p) = ret r
       /\ name r = reg_group2 (fst p))
    (combine hs ms) registers
  /\ length registers = Nat.min (length hs) (length ms).
Proof.
  intros H. destruct (parse_registers_acc _ _ _ _ H) as (rs & -> & Hrs).
  simpl. split.
  - eapply Forall2_impl; [| exact Hrs].
    intros p r Hp. split; [exact Hp |].
    apply Register_new_fields in Hp. apply Hp.
  - apply Forall2_length in Hrs. rewrite <- Hrs. apply length_combine.
Qed.

Lemma registers_paired_by_position_witness :
  Forall2
    (fun p r =>
       from_regex_match (fst p) (snd p) = ret r
       /\ name r = reg_group2 (fst p))
    (combine [heading_a; heading_b; heading_c] [meta_10; meta_20])
    [mkRegister (txt "REG_A") (txt "0x10") RW;
     mkRegister (txt "REG_B") (txt "0x20") RW]
  /\ length [mkRegister (txt "REG_A") (txt "0x10") RW;
             mkRegister (txt "REG_B") (txt "0x20") RW]
     = Nat.min (length [heading_a; heading_b; heading_c])
               (length [meta_10; meta_20]).
Proof.
  apply (registers_paired_by_position
           [heading_a; heading_b; heading_c] [meta_10; meta_20]).
  reflexivity.
Defined.

(** ** Failures of the code emitter *)



Lemma last_register_some (registers : list Register) :
  registers <> [] -> exists r, last_register registers = ret r.
Proof.
  intros H. unfold last_register.
  destruct (rev registers) as [| r t] eqn:E; [| eauto].
  exfalso. apply H. rewrite <- (rev_involutive registers), E. reflexivity.
Qed.



(** ** Success of the code emitter *)

Lemma extract_registers_metas_class (layout : list element) :
  Forall (fun meta => Forall (fun c => is_offset_char c = true)
                             (meta_group1 meta))
         (snd (extract_registers layout)).
Proof.
  induction layout as [| e layout IH]; [constructor |].
  rewrite extract_registers_cons. cbn [snd].
  apply Forall_app. split; [| exact IH].
  destruct e as [element |]; [| constructor]. simpl.
  destruct (search_register element) as [register |];
    [destruct (negb (fullmatch DIGIT_LINES (reg_group0 register))) |];
    simpl;
    (destruct (search_register_meta element) as [meta |] eqn:Em;
     [| constructor];
     constructor; [| constructor];
     apply (search_register_meta_groups _ _ Em)).
Qed.

Lemma format_X_nonneg (n : Z) : (0 <= n)%Z -> format_X n = hex_of_nonneg n.
Proof.
  intros H. unfold format_X.
  destruct (n <? 0)%Z eqn:E; [apply Z.ltb_lt in E; lia | reflexivity].
Qed.

Lemma parse_registers_normalized (hs : list RegisterMatch) :
  forall (ms : list RegisterMetaMatch) (acc registers : list Register),
    Forall (fun meta => Forall (fun c => is_offset_char c = true)
                               (meta_group1 meta)) ms ->
    Forall normalized acc ->
    parse_registers hs ms acc = ret registers ->
    Forall normalized registers.
Proof.
  induction hs as [| h hs IH]; intros ms acc registers Hms Hacc H.
  - simpl in H. inversion H; subst. exact Hacc.
  - destruct ms as [| m ms].
    + simpl in H. inversion H; subst. exact Hacc.
    + cbn [parse_registers] in H.
      destruct (from_regex_match h m) as [e | r] eqn:E; [discriminate |].
      cbn [bind] in H. inversion Hms as [| ? ? Hm Hms']; subst.
      apply (IH _ _ _ Hms') in H; [exact H |].
      apply Forall_app. split; [exact Hacc |].
      constructor; [| constructor].
      apply Register_new_fields in E.
      destruct E as (_ & (n & Hn & Ho) & _).
      pose proof (parse_offset_chars_nonneg _ _ Hm Hn) as Hpos.
      exists n. split; [exact Hpos |].
      rewrite Ho, format_X_nonneg by exact Hpos. reflexivity.
Qed.

Lemma normalized_int16 (reg : Register) :
  normalized reg -> exists n, (0 <= n)%Z /\ int16 (offset reg) = ret n.
Proof.
  intros (n & Hpos & Ho). exists n. split; [exact Hpos |].
  unfold int16. rewrite Ho, parse_rendered by exact Hpos. reflexivity.
Qed.

Lemma normalized_keys (registers : list Register) :
  Forall normalized registers ->
  exists keyed, mapM offset_key registers = ret keyed.
Proof.
  induction 1 as [| r t Hr Ht (keyed & IH)]; [exists []; reflexivity |].
  destruct (normalized_int16 r Hr) as (n & _ & Hn).
  exists ((n, r) :: keyed). simpl. unfold offset_key at 1.
  rewrite Hn. simpl. rewrite IH. reflexivity.
Qed.

Lemma text_eqb_eq (a b : text) : text_eqb a b = true <-> a = b.
Proof.
  split; [| intros ->; apply text_eqb_refl].
  revert b. induction a as [| x a IH]; intros [| y b] H;
    try discriminate; [reflexivity |].
  simpl in H. apply andb_true_iff in H. destruct H as [Hx Ha].
  apply Ascii.eqb_eq in Hx. subst. f_equal. apply IH. exact Ha.
Qed.

Lemma read_file_other (fs : filesystem) (path content p : text) :
  p <> path -> read_file (write_file fs path content) p = read_file fs p.
Proof.
  intros Hp. unfold write_file. cbn [read_file].
  destruct (text_eqb path p) eqn:E.
  - apply text_eqb_eq in E. congruence.
  - clear E. induction fs as [| [q c] fs IH]; [reflexivity |].
    cbn [filter fst read_file].
    destruct (text_eqb q path) eqn:Eq; cbn [negb].
    + apply text_eqb_eq in Eq. subst q.
      destruct (text_eqb path p) eqn:E'; [| exact IH].
      apply text_eqb_eq in E'. congruence.
    + cbn [read_file]. destruct (text_eqb q p); [reflexivity | exact IH].
Qed.

Lemma collect_matches_concat (pages : list (list element)) :
  collect_matches pages = extract_registers (concat pages).
Proof.
  unfold collect_matches. rewrite collect_fold_acc.
  destruct (extract_registers (concat pages)); reflexivity.
Qed.

(** X12: for the matches extracted from the pages, once the two lists have
    the same non-zero length and every register is built, nothing else can
    fail: the stored offsets are all ["0x"] and upper-case digits of a
    non-negative number, so the terminator and the sort keys are computed,
    and [main] writes the document, made of the registers in sorted order
    and the terminator, to the output path, replacing what the path held
    and leaving every other file as it was. *)
Theorem main_writes
    (fs : filesystem) (output : text) (pages : list (list element))
    (hs : list RegisterMatch) (ms : list RegisterMetaMatch)
    (registers : list Register) :
  collect_matches pages = (hs, ms) ->
  length hs = length ms ->
  hs <> [] ->
  parse_registers hs ms [] = ret registers ->
  Forall normalized registers
  /\ exists regs t fs',
       Permutation regs registers
       /\ sorted_registers registers = ret regs
       /\ terminator registers = ret t
       /\ main fs pages output = (ret tt, fs')
       /\ read_file fs' output
          = Some (FMT_format (join [LF] (map emit_code regs ++ [t])))
       /\ forall p, p <> output -> read_file fs' p = read_file fs p.
Proof.
  intros Hx Hl Hne Hp.
  pose proof (extract_registers_metas_class (concat pages)) as Hcls.
  rewrite <- collect_matches_concat, Hx in Hcls. cbn [snd] in Hcls.
  assert (Hn : Forall normalized registers).
  { eapply parse_registers_normalized; [exact Hcls | constructor | exact Hp]. }
  split; [exact Hn |].
  destruct (parse_registers_acc _ _ _ _ Hp) as (rs & Hr & Hrs).
  simpl in Hr. subst rs.
  apply Forall2_length in Hrs. rewrite length_combine, <- Hl in Hrs.
  rewrite Nat.min_id in Hrs.
  assert (Hrne : registers <> []).
  { destruct registers; [| discriminate].
    destruct hs; [congruence | discriminate]. }
  destruct (last_register_some registers Hrne) as (r & Hlast).
  assert (Hr : normalized r).
  { rewrite Forall_forall in Hn. apply Hn.
    unfold last_register in Hlast.
    destruct (rev registers) as [| r' t'] eqn:E; [discriminate |].
    inversion Hlast; subst. apply in_rev. rewrite E. left. reflexivity. }
  destruct (normalized_int16 r Hr) as (n & _ & Hi).
  destruct (normalized_keys registers Hn) as (keyed & Hk).
  destruct (mapM_offset_key _ _ Hk) as [Hsnd _].
  assert (Ht : terminator registers
               = ret (txt "(0x" ++ format_X (n + 4) ++ txt " => @END),")).
  { unfold terminator, final_offset. rewrite Hlast. cbn [bind ret].
    rewrite Hi. reflexivity. }
  assert (Hs : sorted_registers registers = ret (map snd (sort_by_key keyed))).
  { unfold sorted_registers. rewrite Hk. reflexivity. }
  exists (map snd (sort_by_key keyed)),
         (txt "(0x" ++ format_X (n + 4) ++ txt " => @END),"),
         (write_file fs output
            (FMT_format
               (join [LF]
                  (map emit_code (map snd (sort_by_key keyed))
                   ++ [txt "(0x" ++ format_X (n + 4) ++ txt " => @END),"])))).
  split; [rewrite <- Hsnd; apply Permutation_map; apply sort_by_key_perm |].
  split; [exact Hs |]. split; [exact Ht |].
  split.
  - unfold main. rewrite Hx. unfold generate_code.
    apply Nat.eqb_eq in Hl. rewrite Hl. cbn [negb].
    rewrite Hp. cbn [bind ret]. unfold register_structs_members.
    rewrite Ht. cbn [bind ret]. rewrite Hs. reflexivity.
  - split; [apply read_write_file |].
    intros p Hpo. apply read_file_other. exact Hpo.
Qed.

Lemma main_writes_witness :
  Forall normalized
    [mkRegister (txt "CLK_OUT_ENB") (txt "0x30") RW;
     mkRegister (txt "CLK_OUT_DIS") (txt "0x10") RO]
  /\ exists regs t fs',
       Permutation regs
         [mkRegister (txt "CLK_OUT_ENB") (txt "0x30") RW;
          mkRegister (txt "CLK_OUT_DIS") (txt "0x10") RO]
       /\ sorted_registers
            [mkRegister (txt "CLK_OUT_ENB") (txt "0x30") RW;
             mkRegister (txt "CLK_OUT_DIS") (txt "0x10") RO] = ret regs
       /\ terminator
            [mkRegister (txt "CLK_OUT_ENB") (txt "0x30") RW;
             mkRegister (txt "CLK_OUT_DIS") (txt "0x10") RO] = ret t
       /\ main [(registers_rs, txt "old")] [page1; page2] registers_rs
          = (ret tt, fs')
       /\ read_file fs' registers_rs
          = Some (FMT_format (join [LF] (map emit_code regs ++ [t])))
       /\ forall p, p <> registers_rs ->
                    read_file fs' p
                    = read_file [(registers_rs, txt "old")] p.
Proof.
  apply (main_writes [(registers_rs, txt "old")] registers_rs
           [page1; page2] [heading_enb; heading_dis] [meta_enb; meta_dis]).
  - reflexivity.
  - reflexivity.
  - discriminate.
  - reflexivity.
Defined.

(** ** The terminator *)

Lemma mapM_app_last {A B} (f : A -> result B) (l : list A) (x : A) :
  forall ys,
    mapM f (l ++ [x]) = ret ys ->
    exists ys1 y, mapM f l = ret ys1 /\ f x = ret y /\ ys = ys1 ++ [y].
Proof.
  induction l as [| a l IH]; intros ys H; simpl in H.
  - destruct (f x) as [e | y]; [discriminate |]. simpl in H.
    inversion H; subst. exists [], y. repeat split.
  - destruct (f a) as [e | b] eqn:Ea; [discriminate |]. simpl in H.
    destruct (mapM f (l ++ [x])) as [e | bs] eqn:Eb; [discriminate |].
    simpl in H. inversion H; subst.
    destruct (IH bs eq_refl) as (ys1 & y & H1 & H2 & ->).
    exists (b :: ys1), y. simpl. rewrite Ea, H1. repeat split. exact H2.
Qed.

Lemma fold_max_bounds (l : list Z) :
  forall a,
    (a <= fold_left Z.max l a)%Z
    /\ Forall (fun x => (x <= fold_left Z.max l a)%Z) l.
Proof.
  induction l as [| x l IH]; intros a; simpl.
  - split; [lia | constructor].
  - destruct (IH (Z.max a x)) as [H1 H2].
    split; [lia |]. constructor; [lia | exact H2].
Qed.

Lemma fold_max_le (l : list Z) :
  forall a b,
    (a <= b)%Z -> Forall (fun x => (x <= b)%Z) l ->
    (fold_left Z.max l a <= b)%Z.
Proof.
  induction l as [| x l IH]; intros a b Ha Hl; simpl; [exact Ha |].
  inversion Hl; subst. apply IH; [lia | assumption].
Qed.

Lemma max_offset_last (offs : list Z) (n : Z) :
  max_offset (offs ++ [n]) = n <-> Forall (fun o => (o <= n)%Z) offs.
Proof.
  destruct offs as [| o offs]; simpl.
  - split; [constructor | reflexivity].
  - destruct (fold_max_bounds (offs ++ [n]) o) as [H1 H2].
    apply Forall_app in H2. destruct H2 as [H2 H3].
    inversion H3 as [| ? ? Hn _]; subst.
    split.
    + intros E. rewrite E in *. constructor; assumption.
    + intros H. inversion H as [| ? ? Ho Hoffs]; subst.
      assert (fold_left Z.max (offs ++ [n]) o <= n)%Z.
      { apply fold_max_le; [exact Ho |].
        apply Forall_app. split; [exact Hoffs |].
        constructor; [lia | constructor]. }
      lia.
Qed.

(** X13: the terminator stands four past the offset of the register that
    was extracted last, whatever the other offsets are; it stands four past
    the largest offset exactly when no register has a larger offset than
    the one extracted last. *)
Theorem terminator_after_last_extracted
    (registers : list Register) (r : Register) (offs : list Z) (n : Z) :
  numeric_offsets (registers ++ [r]) = ret (offs ++ [n]) ->
  final_offset (registers ++ [r]) = ret (n + 4)%Z
  /\ terminator (registers ++ [r])
     = ret (txt "(0x" ++ format_X (n + 4) ++ txt " => @END),")
  /\ ((n + 4 = max_offset (offs ++ [n]) + 4)%Z
      <-> Forall (fun o => (o <= n)%Z) offs).
Proof.
  intros H. unfold numeric_offsets in H.
  destruct (mapM_app_last _ _ _ _ H) as (ys1 & y & _ & Hy & E).
  apply app_inj_tail in E. destruct E as [_ <-].
  assert (Hf : final_offset (registers ++ [r]) = ret (n + 4)%Z).
  { rewrite final_offset_last, Hy. reflexivity. }
  split; [exact Hf |]. split.
  - unfold terminator. rewrite Hf. reflexivity.
  - rewrite <- max_offset_last. split; intros E; lia.
Qed.

Lemma terminator_after_last_extracted_witness :
  final_offset ([mkRegister (txt "CLK_OUT_ENB") (txt "0x30") RW]
                ++ [mkRegister (txt "CLK_OUT_DIS") (txt "0x10") RO])
  = ret (16 + 4)%Z
  /\ terminator ([mkRegister (txt "CLK_OUT_ENB") (txt "0x30") RW]
                 ++ [mkRegister (txt "CLK_OUT_DIS") (txt "0x10") RO])
     = ret (txt "(0x" ++ format_X (16 + 4) ++ txt " => @END),")
  /\ ((16 + 4 = max_offset ([48] ++ [16]) + 4)%Z
      <-> Forall (fun o => (o <= 16)%Z) [48%Z]).
Proof.
  apply (terminator_after_last_extracted
           [mkRegister (txt "CLK_OUT_ENB") (txt "0x30") RW]
           (mkRegister (txt "CLK_OUT_DIS") (txt "0x10") RO) [48%Z] 16%Z).
  reflexivity.
Defined.

(** ** Registers that share an offset *)

Lemma filter_at_offset_keyed (k : Z) (keyed : list (Z * Register)) :
  Forall (fun kr => int16 (offset (snd kr)) = ret (fst kr)) keyed ->
  filter (at_offset k) (map snd keyed)
  = map snd (filter (fun y => (fst y =? k)%Z) keyed).
Proof.
  induction 1 as [| [n r] t Hkr Ht IH]; [reflexivity |].
  cbn [map filter fst snd] in *. rewrite IH.
  unfold at_offset at 1. unfold int16 in Hkr.
  destruct (parse_int16 (offset r)) as [m |]; [| discriminate].
  inversion Hkr; subst.
  destruct (n =? k)%Z; reflexivity.
Qed.

(** X14: the sort is stable: among the sorted registers, those that stand
    at one and the same offset follow one another in the order in which
    they were extracted. *)
Theorem equal_offsets_keep_order
    (registers regs : list Register) (k : Z) :
  sorted_registers registers = ret regs ->
  filter (at_offset k) regs = filter (at_offset k) registers.
Proof.
  unfold sorted_registers. intros H.
  destruct (mapM offset_key registers) as [e | keyed] eqn:Ek; [discriminate |].
  simpl in H. inversion H; subst. clear H.
  pose proof (keyed_consistent _ _ Ek) as Hk.
  destruct (mapM_offset_key _ _ Ek) as [Hsnd _].
  rewrite filter_at_offset_keyed.
  - rewrite sort_by_key_stable, <- filter_at_offset_keyed by exact Hk.
    rewrite Hsnd. reflexivity.
  - eapply Permutation_Forall; [symmetry; apply sort_by_key_perm | exact Hk].
Qed.

Lemma equal_offsets_keep_order_witness :
  filter (at_offset 16)
    [mkRegister (txt "REG_B") (txt "0x10") RW;
     mkRegister (txt "REG_A") (txt "0x10") RW;
     mkRegister (txt "REG_C") (txt "0x20") RW]
  = filter (at_offset 16)
      [mkRegister (txt "REG_C") (txt "0x20") RW;
       mkRegister (txt "REG_B") (txt "0x10") RW;
       mkRegister (txt "REG_A") (txt "0x10") RW].
Proof.
  apply (equal_offsets_keep_order
           [mkRegister (txt "REG_C") (txt "0x20") RW;
            mkRegister (txt "REG_B") (txt "0x10") RW;
            mkRegister (txt "REG_A") (txt "0x10") RW]).
  reflexivity.
Defined.

(** ** The classifier and the constructor again *)

(** X15: of the four prefixes listed for ReadWrite only two count: the
    classifier decides by comparing the upper-cased descriptor with
    ["R/W"], ["RW"], ["RO"] and ["WO"], in this order; the entries
    ["Read/Write"] and ["RWC"] never change its answer. *)
Theorem from_str_effective_prefixes (d : text) :
  from_str d =
  if startswith (upper d) (txt "R/W") || startswith (upper d) (txt "RW")
  then ret RW
  else if startswith (upper d) (txt "RO") then ret RO
  else if startswith (upper d) (txt "WO") then ret WO
  else raise (ValueError []).
Proof. apply from_str_decision. Qed.

Lemma startswith_two (u : text) (a b : ascii) :
  startswith u [a; b] = true -> exists t, u = a :: b :: t.
Proof.
  destruct u as [| x [| y t]]; simpl; try discriminate.
  - rewrite andb_false_r. discriminate.
  - intros H. apply andb_true_iff in H. destruct H as [Ha H].
    apply andb_true_iff in H. destruct H as [Hb _].
    apply Ascii.eqb_eq in Ha, Hb. subst. eauto.
Qed.

Lemma startswith_three (u : text) (a b c : ascii) :
  startswith u [a; b; c] = true -> exists t, u = a :: b :: c :: t.
Proof.
  destruct u as [| x [| y [| z t]]]; simpl; try discriminate.
  - rewrite andb_false_r. discriminate.
  - rewrite !andb_false_r. discriminate.
  - intros H. apply andb_true_iff in H. destruct H as [Ha H].
    apply andb_true_iff in H. destruct H as [Hb H].
    apply andb_true_iff in H. destruct H as [Hc _].
    apply Ascii.eqb_eq in Ha, Hb, Hc. subst. eauto.
Qed.

(** X16: the classifier reads the beginning of the descriptor only: what
    follows a classified descriptor does not change its class. *)
Theorem from_str_ignores_rest (d rest : text) (c : MemoryPermissions) :
  from_str d = ret c -> from_str (d ++ rest) = ret c.
Proof.
  rewrite !from_str_decision. unfold upper. rewrite map_app.
  fold (upper d). fold (upper rest).
  destruct (startswith (upper d) (txt "R/W")) eqn:E1.
  { apply (startswith_three _ "R" "/" "W") in E1. destruct E1 as (t & ->).
    intros H; exact H. }
  destruct (startswith (upper d) (txt "RW")) eqn:E2.
  { apply (startswith_two _ "R" "W") in E2. destruct E2 as (t & ->).
    intros H; exact H. }
  cbn [orb].
  destruct (startswith (upper d) (txt "RO")) eqn:E3.
  { apply (startswith_two _ "R" "O") in E3. destruct E3 as (t & ->).
    intros H; exact H. }
  destruct (startswith (upper d) (txt "WO")) eqn:E4.
  { apply (startswith_two _ "W" "O") in E4. destruct E4 as (t & ->).
    intros H; exact H. }
  discriminate.
Qed.

Lemma from_str_ignores_rest_witness :
  from_str (txt "ro" ++ txt "/W1C") = ret RO.
Proof.
  apply (from_str_ignores_rest (txt "ro") (txt "/W1C") RO). reflexivity.
Defined.

(** X17: normalisation is idempotent: the stored offset of a register
    built from a captured literal is itself a literal that the constructor
    accepts, and a register built from it stores the same offset. *)
Theorem normalisation_idempotent
    (nm nm' lit d d' : text) (r : Register) (c' : MemoryPermissions) :
  Forall (fun ch => is_offset_char ch = true) lit ->
  Register_new nm lit d = ret r ->
  from_str d' = ret c' ->
  Register_new nm' (offset r) d' = ret (mkRegister nm' (offset r) c').
Proof.
  intros Hcls Hr Hc.
  apply Register_new_fields in Hr. destruct Hr as (_ & (n & Hn & Ho) & _).
  pose proof (parse_offset_chars_nonneg _ _ Hcls Hn) as Hpos.
  rewrite format_X_nonneg in Ho by exact Hpos.
  unfold Register_new, int16.
  rewrite Ho, parse_rendered by exact Hpos.
  cbn [bind ret]. rewrite Hc. cbn [bind ret].
  rewrite format_X_nonneg by exact Hpos. reflexivity.
Qed.

Lemma normalisation_idempotent_witness :
  Register_new (txt "B")
    (offset (mkRegister (txt "A") (txt "0x3C") RW)) (txt "RO")
  = ret (mkRegister (txt "B")
           (offset (mkRegister (txt "A") (txt "0x3C") RW)) RO).
Proof.
  apply (normalisation_idempotent
           (txt "A") (txt "B") (txt "3c") (txt "r/w") (txt "RO")
           (mkRegister (txt "A") (txt "0x3C") RW) RO).
  - repeat constructor.
  - reflexivity.
  - reflexivity.
Defined.

(** ** Characters from U+0080 on *)

(** A register name may hold letters such as U+00C9, and a no-break space
    separates a chapter from a name as a blank does. *)
Example heading_with_latin1 :
  search_register
    (txt "2.1" ++ [ascii_of_nat 160] ++ txt "CAF" ++ [ascii_of_nat 201; LF])
  = Some (mkRegisterMatch
            (txt "2.1" ++ [ascii_of_nat 160] ++ txt "CAF"
               ++ [ascii_of_nat 201; LF])
            (txt "2.1") (txt "CAF" ++ [ascii_of_nat 201]) None).
Proof. reflexivity. Qed.

(** The permissions may end in a letter such as U+00E9, a no-break space
    may follow ["Offset:"], and the multiplication sign is no word
    character. *)
Example metadata_with_latin1 :
  search_register_meta
    (txt "Offset:" ++ [ascii_of_nat 160] ++ txt "0x30 | Read/Write: RO"
       ++ [ascii_of_nat 233; ascii_of_nat 215])
  = Some (mkRegisterMetaMatch
            (txt "Offset:" ++ [ascii_of_nat 160] ++ txt "0x30 | Read/Write: RO"
               ++ [ascii_of_nat 233])
            (txt "0x30") (txt "RO" ++ [ascii_of_nat 233])).
Proof. reflexivity. Qed.

(** [int] skips a no-break space or a next-line character around a
    literal, not a file separator; a register whose permissions end in
    U+00E9 is classified by their beginning. *)
Example builtins_with_latin1 :
  parse_int16 (ascii_of_nat 160 :: txt "1f" ++ [ascii_of_nat 133]) = Some 31%Z
  /\ parse_int16 (ascii_of_nat 28 :: txt "1f") = None
  /\ upper (txt "ro" ++ [ascii_of_nat 233]) = txt "RO" ++ [ascii_of_nat 201]
  /\ from_str (txt "ro" ++ [ascii_of_nat 233]) = ret RO.
Proof. repeat split. Qed.

(** ** The classifier on code points *)

Lemma N_of_ascii_eqb (x y : ascii) :
  N.eqb (N_of_ascii x) (N_of_ascii y) = Ascii.eqb x y.
Proof.
  destruct (Ascii.eqb x y) eqn:E.
  - apply Ascii.eqb_eq in E. subst. apply N.eqb_refl.
  - apply N.eqb_neq. intros H. apply Ascii.eqb_neq in E. apply E.
    rewrite <- (ascii_N_embedding x), <- (ascii_N_embedding y), H.
    reflexivity.
Qed.

Lemma is_plain_facts (x : ascii) :
  is_plain x = true ->
  N.eqb (N_of_ascii x) 83 = false
  /\ N.eqb (N_of_ascii x) 924 = false
  /\ N.eqb (N_of_ascii x) 376 = false
  /\ Ascii.eqb x (ascii_of_nat 223) = false
  /\ Ascii.eqb x (ascii_of_nat 181) = false
  /\ Ascii.eqb x (ascii_of_nat 255) = false.
Proof. all_chars x; vm_compute; intuition congruence. Qed.

Lemma ord_eq (c : ascii) (n : nat) : (ord c =? n) = true -> c = ascii_of_nat n.
Proof.
  intros H. apply Nat.eqb_eq in H. rewrite <- H.
  symmetry. apply ascii_nat_embedding.
Qed.

(** Against a prefix of plain characters, the upper-cased text of the
    model and the code points of [str.upper] compare alike. *)
Lemma startswith_points_upper (p : text) :
  Forall (fun x => is_plain x = true) p ->
  forall d,
    startswith_points (upper_unicode d) (points p) = startswith (upper d) p.
Proof.
  induction 1 as [| x p Hx Hp IH]; intros d; [reflexivity |].
  destruct d as [| c d]; [reflexivity |].
  destruct (is_plain_facts x Hx) as (H83 & H924 & H376 & H223 & H181 & H255).
  cbn [upper_unicode flat_map upper map points startswith].
  unfold upper_points.
  destruct (ord c =? 223) eqn:E1.
  { apply ord_eq in E1. subst c.
    change (upper_char (ascii_of_nat 223)) with (ascii_of_nat 223).
    cbn [app startswith_points]. rewrite H83, H223. reflexivity. }
  destruct (ord c =? 181) eqn:E2.
  { apply ord_eq in E2. subst c.
    change (upper_char (ascii_of_nat 181)) with (ascii_of_nat 181).
    cbn [app startswith_points]. rewrite H924, H181. reflexivity. }
  destruct (ord c =? 255) eqn:E3.
  { apply ord_eq in E3. subst c.
    change (upper_char (ascii_of_nat 255)) with (ascii_of_nat 255).
    cbn [app startswith_points]. rewrite H376, H255. reflexivity. }
  cbn [app startswith_points]. rewrite N_of_ascii_eqb.
  fold (upper_unicode d). fold (points p). fold (upper d).
  rewrite IH. reflexivity.
Qed.

(** The classifier decides as it would on the code points that
    [str.upper] yields: keeping the three characters whose upper-case
    form leaves the range changes no answer. *)
Lemma from_str_unicode_eq (d : text) : from_str_unicode d = from_str d.
Proof.
  unfold from_str_unicode, from_str, startswith_any. cbn [existsb].
  rewrite !startswith_points_upper
    by (repeat constructor).
  reflexivity.
Qed.
